(** * The write-ahead log of the promtail client

    A shallow embedding of [clients/pkg/promtail/client/wal.go]: the [WAL]
    interface, its two implementations ([noopWAL] and [walWrapper]), the
    constructor [newWAL] and the [resettingPool] of scratch objects.

    The wrapper talks to collaborators that live outside the file: the
    tsdb [wlog] engine, the [os] file system, the go-kit logger, the record
    encoders of [pkg/ingester] and the standard library ([strconv], [path],
    [sync.Pool]).  Their calls are state transitions of an external world
    and are recorded, in order, in a trace. *)

From Stdlib Require Import ZArith Ascii String List Lia.
From Stdlib Require Import Init.Byte.
From stdpp Require Import base option list strings gmap.

Local Open Scope Z_scope.
Local Open Scope string_scope.

(** ** Go values *)

(** [int] on a 64-bit platform. *)
Definition minInt : Z := - 2 ^ 63.
Definition maxInt : Z := 2 ^ 63 - 1.

(** The [error] interface.  [fmt.Errorf] without a [%w] verb yields an error
    that is only a message; with one [%w] it yields an error that also wraps
    its operand.  Errors built by collaborators are values of the same type. *)
Inductive error : Type :=
| errorString (msg : string)
| wrapError (msg : string) (err : error).

Definition Error (e : error) : string :=
  match e with
  | errorString msg => msg
  | wrapError msg _ => msg
  end.

Definition Unwrap (e : error) : option error :=
  match e with
  | errorString _ => None
  | wrapError _ err => Some err
  end.

Module fmt.
(** [fmt.Errorf(msg)] for a format without verbs. *)
Definition Errorf (msg : string) : error := errorString msg.

(** [fmt.Errorf(prefix + "%w", err)]. *)
Definition Errorf_w (prefix : string) (err : error) : error :=
  wrapError (prefix ++ Error err) err.
End fmt.

(** A slice: the identity of its backing array, the elements in [0, len)
    and the capacity. *)
Record slice (A : Type) : Type := mkSlice {
  array : nat;
  elems : list A;
  cap : nat
}.
Arguments mkSlice {A} _ _ _.
Arguments array {A} _.
Arguments elems {A} _.
Arguments cap {A} _.

Definition len {A} (s : slice A) : nat := length (elems s).

(** [s[:0]] *)
Definition reslice0 {A} (s : slice A) : slice A :=
  {| array := array s; elems := []; cap := cap s |}.

(** [append(s, xs...)] given the next free array identity: in place when the
    capacity suffices, otherwise into a new, sufficiently large array. *)
Definition append {A} (s : slice A) (xs : list A) (next : nat) : slice A * nat :=
  if (length (elems s ++ xs) <=? cap s)%nat
  then ({| array := array s; elems := elems s ++ xs; cap := cap s |}, next)
  else ({| array := next; elems := elems s ++ xs; cap := length (elems s ++ xs) |}, S next).

(** ** strconv *)

Module strconv.

Definition digit (c : ascii) : option Z :=
  let n := Z.of_N (N_of_ascii c) in
  if ((48 <=? n) && (n <=? 57))%Z then Some (n - 48) else None.

Fixpoint digits (s : string) (acc : Z) : option Z :=
  match s with
  | EmptyString => Some acc
  | String c rest =>
      match digit c with
      | Some d => digits rest (acc * 10 + d)
      | None => None
      end
  end.

(** [strconv.Atoi]: an optional sign, then one or more decimal digits;
    a value outside [int] is a range error.  [None] stands for a non-nil
    error, on which the caller ignores the number. *)
Definition Atoi (s : string) : option Z :=
  match s with
  | EmptyString => None
  | String c rest =>
      let neg := Ascii.eqb c "-"%char in
      let body := if neg || Ascii.eqb c "+"%char then rest else s in
      match body with
      | EmptyString => None
      | _ =>
          match digits body 0 with
          | None => None
          | Some n =>
              let v := if neg then - n else n in
              if ((minInt <=? v) && (v <=? maxInt))%Z then Some v else None
          end
      end
  end.

End strconv.

(** ** sync.Pool

    A [sync.Pool] as its callers see it.  [items] are the instances that
    were put and not handed out since, newest first.  Which of them a [Get]
    hands out, if any, is decided by the runtime and not by the callers: an
    instance may be gone (a garbage collection, the cache of another
    processor) and [Get] may treat the pool as empty.  The pool therefore
    carries the decisions of the runtime at the coming [Get]s: [Some i]
    hands out the [i]-th instance, and [None], or an index past the end,
    hands out nothing, in which case the caller's [New] runs.  An instance
    that the runtime has dropped stays among the [items] and is never
    chosen.  A runtime whose schedule is exhausted hands out the newest
    instance; the theorems hold for every schedule. *)
Module sync.

Record Pool (A : Type) : Type := mkPool {
  items : list A;
  runtime : list (option nat)
}.
Arguments mkPool {A} _ _.
Arguments items {A} _.
Arguments runtime {A} _.

Definition empty {A} : Pool A := mkPool [] [].

Definition Put {A} (x : A) (p : Pool A) : Pool A :=
  mkPool (x :: items p) (runtime p).

(** What the runtime decides at the next [Get]. *)
Definition decision {A} (p : Pool A) : option nat :=
  match runtime p with
  | [] => Some 0%nat
  | d :: _ => d
  end.

Definition Get {A} (p : Pool A) : option A * Pool A :=
  let later := tail (runtime p) in
  match decision p with
  | Some i =>
      match items p !! i with
      | Some x => (Some x, mkPool (delete i (items p)) later)
      | None => (None, mkPool (items p) later)
      end
  | None => (None, mkPool (items p) later)
  end.

(** The instances that were put into a pool and not handed out since. *)
Definition contents {A} (p : Pool A) : list A := items p.

End sync.

(** ** Types of the collaborators *)

Module logproto.
Record Entry : Type := { Timestamp : Z; Line : string }.
End logproto.

Module record.
Record RefSeries : Type := { Ref : Z; Labels : list (string * string) }.
End record.

Module ingester.

(** [type RecordType byte] *)
Definition RecordType : Type := Z.

(** One (reference id, entries) group of a record. *)
Record RefEntriesT : Type := {
  Counter : Z;
  Ref : Z;
  Entries : slice logproto.Entry
}.

(** Modelled from the spec: the struct [ingester.WALRecord] is declared in
    [pkg/ingester]; a record is an ordered list of series descriptors and
    an ordered list of (reference id, entries) groups for one tenant. *)
Record WALRecord : Type := {
  UserID : string;
  Series : slice record.RefSeries;
  RefEntries : slice RefEntriesT
}.

End ingester.

Record Logger : Type := { logger_id : nat }.
Record Registerer : Type := { registerer_id : nat }.

(** [fs.DirEntry], of which the wrapper reads the name only. *)
Record DirEntry : Type := { Name : string; IsDir : bool }.

(** A value passed to the logger. *)
Inductive logval : Type :=
| LString (s : string)
| LError (e : error).

(** What a Go function call ends in. *)
Inductive result (A : Type) : Type :=
| Return (a : A)
| Panic (reason : string).
Arguments Return {A} _.
Arguments Panic {A} _.

(** ** The collaborators

    [Ext] is the state of everything outside the wrapper (the engine and the
    disk it writes to), [WL] the type of engine handles ([*wlog.WL]).  Each
    operation is a transition of [Ext]; [Dir] reads an immutable field of the
    handle and [os.ReadDir] only reads.  The encoders may allocate: they
    take and return the next free array identity. *)
Class Collaborators (Ext WL : Type) : Type := {
  (* github.com/prometheus/prometheus/tsdb/wlog *)
  wlog_DefaultSegmentSize : Z;
  wlog_NewSize : Logger → Registerer → string → Z → bool → Ext → (WL + error) * Ext;
  wl_Close : WL → Ext → option error * Ext;
  wl_Dir : WL → string;
  wl_Log : WL → list Byte.byte → Ext → option error * Ext;
  wl_Sync : WL → Ext → option error * Ext;
  wl_NextSegmentSync : WL → Ext → (Z * option error) * Ext;
  (* os *)
  os_RemoveAll : string → Ext → option error * Ext;
  os_ReadDir : string → Ext → list DirEntry * option error;
  os_Remove : string → Ext → option error * Ext;
  (* path and path/filepath *)
  path_Join : list string → string;
  filepath_Join : list string → string;
  (* github.com/grafana/loki/pkg/ingester *)
  ingester_CurrentEntriesRec : ingester.RecordType;
  EncodeSeries : ingester.WALRecord → slice Byte.byte → nat → slice Byte.byte * nat;
  EncodeEntries : ingester.WALRecord → ingester.RecordType → slice Byte.byte → nat → slice Byte.byte * nat;
  Reset : ingester.WALRecord → ingester.WALRecord
}.

(** [type resettingPool struct]; the record pool holds pointers, which are
    addresses in the record store of the world. *)
Record resettingPool : Type := mkResettingPool {
  rPool : sync.Pool nat;
  ePool : sync.Pool (slice logproto.Entry);
  bPool : sync.Pool (slice Byte.byte)
}.

(** [newRecordPool]: three pools that nothing was put into (their [New]
    functions are written out in the getters below). *)
Definition newRecordPool : resettingPool :=
  mkResettingPool sync.empty sync.empty sync.empty.

(** A call that crosses the boundary of the file. *)
Inductive Event (WL : Type) : Type :=
| CallNewSize (log : Logger) (registerer : Registerer) (dir : string)
    (segmentSize : Z) (compress : bool)
| CallClose (wl : WL)
| CallLog (wl : WL) (rec : list Byte.byte)
| CallSync (wl : WL)
| CallNextSegmentSync (wl : WL)
| CallRemoveAll (path : string)
| CallReadDir (name : string)
| CallRemove (name : string)
| LogWarn (log : Logger) (keyvals : list (string * logval)).
Arguments CallNewSize {WL} _ _ _ _ _.
Arguments CallClose {WL} _.
Arguments CallLog {WL} _ _.
Arguments CallSync {WL} _.
Arguments CallNextSegmentSync {WL} _.
Arguments CallRemoveAll {WL} _.
Arguments CallReadDir {WL} _.
Arguments CallRemove {WL} _.
Arguments LogWarn {WL} _ _.

(** The state a call runs in: the collaborators' state, the calls made so
    far (oldest first), the allocator, the record store and the package
    variable [recordPool].  The allocator is the identity of the next new
    backing array or record; it counts those, and not the slice headers
    that are boxed when a slice is put into a pool. *)
Record World (Ext WL : Type) : Type := mkWorld {
  ext : Ext;
  trace : list (Event WL);
  next : nat;
  store : gmap nat ingester.WALRecord;
  recordPool : resettingPool
}.
Arguments mkWorld {Ext WL} _ _ _ _ _.
Arguments ext {Ext WL} _.
Arguments trace {Ext WL} _.
Arguments next {Ext WL} _.
Arguments store {Ext WL} _.
Arguments recordPool {Ext WL} _.

(** ** The monad of Go function bodies: state, and a panic that keeps it *)

Definition M (S A : Type) : Type := S → result A * S.

#[global] Instance M_ret {S} : MRet (M S) := λ A a s, (Return a, s).

#[global] Instance M_bind {S} : MBind (M S) := λ A B f m s,
  match m s with
  | (Return a, s') => f a s'
  | (Panic reason, s') => (Panic reason, s')
  end.

Definition panic {S A} (reason : string) : M S A := λ s, (Panic reason, s).

(** A function body with a local variable of type [L] that a deferred
    closure captures: the body runs on the pair of the local and the world. *)
Definition zoom {L S A} (m : M S A) : M (L * S) A := λ '(l, s),
  let '(r, s') := m s in (r, (l, s')).

Definition local_get {L S} : M (L * S) L := λ '(l, s), (Return l, (l, s)).

Definition local_set {L S} (l : L) : M (L * S) unit := λ '(_, s), (Return tt, (l, s)).

(** [defer func() { deferred(l) }()] in front of [body]: the closure runs
    when the body returns or panics and reads the local as it is then; a
    panic of the closure replaces the outcome of the body. *)
Definition with_defer {L S A} (l0 : L) (deferred : L → M S unit) (body : M (L * S) A)
  : M S A := λ s,
  let '(r, (l, s1)) := body (l0, s) in
  match deferred l s1 with
  | (Return _, s2) => (r, s2)
  | (Panic reason, s2) => (Panic reason, s2)
  end.

(** Dereference of a pointer. *)
Definition deref {S A} (p : option A) : M S A :=
  match p with
  | Some a => mret a
  | None => panic "invalid memory address or nil pointer dereference"
  end.

(** ** wal.go *)

Section wal.

Context {Ext WL : Type} `{C : Collaborators Ext WL}.

Local Abbreviation World := (World Ext WL).
Local Abbreviation Go := (M World).

(** *** Calls to the collaborators *)

(** A call that may change the collaborators' state. *)
Definition call {A} (e : Event WL) (f : Ext → A * Ext) : Go A := λ w,
  let '(a, x) := f (ext w) in
  (Return a, mkWorld x (trace w ++ [e]) (next w) (store w) (recordPool w)).

(** A call that only reads it. *)
Definition call_ro {A} (e : Event WL) (f : Ext → A) : Go A := λ w,
  (Return (f (ext w)),
   mkWorld (ext w) (trace w ++ [e]) (next w) (store w) (recordPool w)).

(** A call that may allocate. *)
Definition alloc {A} (f : nat → A * nat) : Go A := λ w,
  let '(a, n) := f (next w) in
  (Return a, mkWorld (ext w) (trace w) n (store w) (recordPool w)).

(** [level.Warn(log).Log(keyvals...)] *)
Definition level_Warn (log : Logger) (keyvals : list (string * logval)) : Go unit := λ w,
  (Return tt,
   mkWorld (ext w) (trace w ++ [LogWarn log keyvals]) (next w) (store w) (recordPool w)).

Definition set_recordPool (p : resettingPool) : Go unit := λ w,
  (Return tt, mkWorld (ext w) (trace w) (next w) (store w) p).

Definition set_store (m : gmap nat ingester.WALRecord) : Go unit := λ w,
  (Return tt, mkWorld (ext w) (trace w) (next w) m (recordPool w)).

Definition get_world : Go World := λ w, (Return w, w).

(** *** resettingPool *)

(** [make([]T, 0, n)] *)
Definition make {A} (n : nat) : Go (slice A) :=
  alloc (λ a, (mkSlice a [] n, S a)).

(** [&ingester.WALRecord{}]: a new address that holds the zero record
    (empty user, nil slices). *)
Definition nilSlice {A} : slice A := mkSlice 0 [] 0.

Definition zeroRecord : ingester.WALRecord :=
  {| ingester.UserID := "";
     ingester.Series := nilSlice;
     ingester.RefEntries := nilSlice |}.

Definition new_WALRecord : Go nat :=
  a ← alloc (λ a, (a, S a));
  w ← get_world;
  set_store (<[a := zeroRecord]> (store w));;
  mret a.

Definition GetRecord : Go nat :=
  w ← get_world;
  let p := recordPool w in
  rec ← match sync.Get (rPool p) with
        | (Some x, rp) => set_recordPool (mkResettingPool rp (ePool p) (bPool p));; mret x
        | (None, rp) =>
            set_recordPool (mkResettingPool rp (ePool p) (bPool p));; new_WALRecord
        end;
  (* rec.Reset() *)
  w ← get_world;
  r ← deref (store w !! rec);
  set_store (<[rec := Reset r]> (store w));;
  mret rec.

Definition PutRecord (r : nat) : Go unit :=
  w ← get_world;
  let p := recordPool w in
  set_recordPool (mkResettingPool (sync.Put r (rPool p)) (ePool p) (bPool p)).

(** [*rec = r]: what a borrower does to the record between [GetRecord] and
    [PutRecord]. *)
Definition store_record (rec : nat) (r : ingester.WALRecord) : Go unit :=
  w ← get_world;
  set_store (<[rec := r]> (store w)).

Definition GetEntries : Go (slice logproto.Entry) :=
  w ← get_world;
  let p := recordPool w in
  match sync.Get (ePool p) with
  | (Some x, ep) => set_recordPool (mkResettingPool (rPool p) ep (bPool p));; mret x
  | (None, ep) => set_recordPool (mkResettingPool (rPool p) ep (bPool p));; make 512
  end.

Definition PutEntries (es : slice logproto.Entry) : Go unit :=
  w ← get_world;
  let p := recordPool w in
  set_recordPool (mkResettingPool (rPool p) (sync.Put (reslice0 es) (ePool p)) (bPool p)).

Definition GetBytes : Go (slice Byte.byte) :=
  w ← get_world;
  let p := recordPool w in
  match sync.Get (bPool p) with
  | (Some x, bp) => set_recordPool (mkResettingPool (rPool p) (ePool p) bp);; mret x
  | (None, bp) => set_recordPool (mkResettingPool (rPool p) (ePool p) bp);; make (2 ^ 10)
  end.

Definition PutBytes (b : slice Byte.byte) : Go unit :=
  w ← get_world;
  let p := recordPool w in
  set_recordPool (mkResettingPool (rPool p) (ePool p) (sync.Put (reslice0 b) (bPool p))).

(** *** noopWAL *)

Inductive noopWAL : Type := mk_noopWAL.

Definition NoopWAL : noopWAL := mk_noopWAL.

Definition noopWAL_Log (n : noopWAL) (_ : option ingester.WALRecord) : Go (option error) :=
  mret None.

Definition noopWAL_Delete (n : noopWAL) : Go (option error) := mret None.

Definition noopWAL_Sync (n : noopWAL) : Go (option error) := mret None.

Definition noopWAL_Dir (n : noopWAL) : Go string := mret "".

Definition noopWAL_DeleteSegment (n : noopWAL) (segmentNum : Z) : Go (option error) :=
  mret None.

Definition noopWAL_NextSegment (n : noopWAL) : Go (Z * option error) :=
  mret (0, None).

(** *** walWrapper *)

Record walWrapper : Type := mk_walWrapper {
  wal : WL;
  log : Logger
}.

Definition walWrapper_Close (w : walWrapper) : Go (option error) :=
  call (CallClose (wal w)) (wl_Close (wal w)).

Definition walWrapper_Delete (w : walWrapper) : Go (option error) :=
  err ← call (CallClose (wal w)) (wl_Close (wal w));
  match err with
  | Some e => level_Warn (log w) [("msg", LString "failed to close WAL"); ("err", LError e)]
  | None => mret tt
  end;;
  err ← call (CallRemoveAll (wl_Dir (wal w))) (os_RemoveAll (wl_Dir (wal w)));
  mret err.

(** The statements of [Log] after the [defer]; the local is [buf].  The
    outcome of the series block is [Some err] when it ends in
    [return err]. *)
Definition walWrapper_Log_body (w : walWrapper) (record : option ingester.WALRecord)
  : M (slice Byte.byte * World) (option error) :=
  r ← deref record;
  returned ←
    (if (0 <? len (ingester.Series r))%nat then
       buf ← local_get;
       buf ← zoom (alloc (EncodeSeries r buf));
       local_set buf;;
       err ← zoom (call (CallLog (wal w) (elems buf)) (wl_Log (wal w) (elems buf)));
       match err with
       | Some e => mret (Some e)
       | None => local_set (reslice0 buf);; mret None
       end
     else mret None);
  match returned with
  | Some e => mret (Some e)
  | None =>
      if (0 <? len (ingester.RefEntries r))%nat then
        buf ← local_get;
        buf ← zoom (alloc (EncodeEntries r ingester_CurrentEntriesRec buf));
        local_set buf;;
        err ← zoom (call (CallLog (wal w) (elems buf)) (wl_Log (wal w) (elems buf)));
        match err with
        | Some e => mret (Some e)
        | None => mret None
        end
      else mret None
  end.

Definition walWrapper_Log (w : walWrapper) (record : option ingester.WALRecord)
  : Go (option error) :=
  (* record == nil || (len(record.Series) == 0 && len(record.RefEntries) == 0) *)
  skip ← match record with
         | None => mret true
         | Some _ =>
             r ← deref record;
             mret ((len (ingester.Series r) =? 0)%nat
                   && (len (ingester.RefEntries r) =? 0)%nat)
         end;
  if skip : bool then mret None
  else
    b ← GetBytes;
    with_defer (reslice0 b) PutBytes (walWrapper_Log_body w record).

Definition walWrapper_Sync (w : walWrapper) : Go (option error) :=
  call (CallSync (wal w)) (wl_Sync (wal w)).

Definition walWrapper_Dir (w : walWrapper) : Go string :=
  mret (wl_Dir (wal w)).

(** The loop of [DeleteSegment] over the remaining [files]; [segmentName]
    is the variable declared before the loop. *)
Fixpoint walWrapper_DeleteSegment_loop (files : list DirEntry) (segmentNum : Z)
    (segmentName : string) : string :=
  match files with
  | [] => segmentName
  | f :: rest =>
      let fileName := Name f in
      match strconv.Atoi fileName with
      | None => walWrapper_DeleteSegment_loop rest segmentNum segmentName
      | Some fileNameAsNumber =>
          if (fileNameAsNumber =? segmentNum)%Z then fileName
          else walWrapper_DeleteSegment_loop rest segmentNum segmentName
      end
  end.

Definition walWrapper_DeleteSegment (w : walWrapper) (segmentNum : Z) : Go (option error) :=
  dir ← walWrapper_Dir w;
  '(files, err) ← call_ro (CallReadDir dir) (os_ReadDir dir);
  match err with
  | Some _ => mret (Some (fmt.Errorf "error reading wal dir"))
  | None =>
      let segmentName := walWrapper_DeleteSegment_loop files segmentNum "" in
      if String.eqb segmentName "" then mret (Some (fmt.Errorf "segment not found"))
      else
        dir ← walWrapper_Dir w;
        err ← call (CallRemove (filepath_Join [dir; segmentName]))
                   (os_Remove (filepath_Join [dir; segmentName]));
        match err with
        | Some e => mret (Some (fmt.Errorf_w "failed deleting segment: " e))
        | None => mret None
        end
  end.

Definition walWrapper_NextSegment (w : walWrapper) : Go (Z * option error) :=
  call (CallNextSegmentSync (wal w)) (wl_NextSegmentSync (wal w)).

(** *** The interface and the constructor *)

(** [type WAL interface]. *)
Class WAL (T : Type) : Type := {
  Log : T → option ingester.WALRecord → Go (option error);
  Delete : T → Go (option error);
  Sync : T → Go (option error);
  Dir : T → Go string;
  DeleteSegment : T → Z → Go (option error);
  NextSegment : T → Go (Z * option error)
}.

#[global] Instance noopWAL_WAL : WAL noopWAL := {
  Log := noopWAL_Log;
  Delete := noopWAL_Delete;
  Sync := noopWAL_Sync;
  Dir := noopWAL_Dir;
  DeleteSegment := noopWAL_DeleteSegment;
  NextSegment := noopWAL_NextSegment
}.

#[global] Instance walWrapper_WAL : WAL walWrapper := {
  Log := walWrapper_Log;
  Delete := walWrapper_Delete;
  Sync := walWrapper_Sync;
  Dir := walWrapper_Dir;
  DeleteSegment := walWrapper_DeleteSegment;
  NextSegment := walWrapper_NextSegment
}.

(** A value of interface type [WAL]: its dynamic type and value, or nil. *)
Inductive WALValue : Type :=
| nilWAL
| ofNoopWAL (n : noopWAL)
| ofWalWrapper (w : walWrapper).

(** Modelled from the spec: [WALConfig] is declared in another file of the
    package; of its fields [newWAL] reads [Enabled] and [Dir]. *)
Record WALConfig : Type := { cfg_Enabled : bool; cfg_Dir : string }.

Definition newWAL (log : Logger) (registerer : Registerer) (cfg : WALConfig)
    (clientName tenantID : string) : Go (WALValue * option error) :=
  if negb (cfg_Enabled cfg) then mret (ofNoopWAL NoopWAL, None)
  else
    let dir := path_Join [cfg_Dir cfg; clientName; tenantID] in
    r ← call (CallNewSize log registerer dir wlog_DefaultSegmentSize false)
             (wlog_NewSize log registerer dir wlog_DefaultSegmentSize false);
    match r with
    | inr err => mret (nilWAL, Some err)
    | inl tsdbWAL => mret (ofWalWrapper (mk_walWrapper tsdbWAL log), None)
    end.

End wal.

(** ** An in-memory simulation of the collaborators

    One WAL directory with its entry names, an engine that keeps what it
    accepted, and switches that make the engine or the file system fail.
    It is the concrete world on which the general statements below are run. *)
Module Sim.

Record Ext : Type := mkExt {
  wal_dir : string;
  entries : list string;
  appended : list (list Byte.byte);
  closed : bool;
  log_fails : bool;
  close_fails : bool;
  remove_fails : bool
}.

(** A handle is the directory it was opened on. *)
Definition WL : Type := string.

Definition join (elem : list string) : string :=
  String.concat "/" (filter (λ e, negb (String.eqb e "")) elem).

Definition NewSize (_ : Logger) (_ : Registerer) (dir : string) (_ : Z) (_ : bool)
    (x : Ext) : (WL + error) * Ext :=
  (inl dir, x).

Definition Close (_ : WL) (x : Ext) : option error * Ext :=
  if close_fails x then (Some (errorString "close: file already closed"), x)
  else (None, mkExt (wal_dir x) (entries x) (appended x) true
                    (log_fails x) (close_fails x) (remove_fails x)).

Definition Log (_ : WL) (rec : list Byte.byte) (x : Ext) : option error * Ext :=
  if log_fails x then (Some (errorString "write: no space left on device"), x)
  else (None, mkExt (wal_dir x) (entries x) (appended x ++ [rec]) (closed x)
                    (log_fails x) (close_fails x) (remove_fails x)).

Definition ReadDir (_ : string) (x : Ext) : list DirEntry * option error :=
  (map (λ n, {| Name := n; IsDir := false |}) (entries x), None).

Definition Remove (name : string) (x : Ext) : option error * Ext :=
  let is_it n := String.eqb (join [wal_dir x; n]) name in
  if remove_fails x then (Some (errorString "remove: permission denied"), x)
  else if existsb is_it (entries x)
  then (None, mkExt (wal_dir x) (filter (λ n, negb (is_it n)) (entries x)) (appended x)
                    (closed x) (log_fails x) (close_fails x) (remove_fails x))
  else (Some (errorString "remove: no such file or directory"), x).

Definition RemoveAll (path : string) (x : Ext) : option error * Ext :=
  if remove_fails x then (Some (errorString "unlinkat: permission denied"), x)
  else if String.eqb path (wal_dir x)
  then (None, mkExt (wal_dir x) [] (appended x) (closed x)
                    (log_fails x) (close_fails x) (remove_fails x))
  else (None, x).

(** The encoders append a tag and eight bytes per series, or per group of
    entries, to the buffer they are given. *)
Definition EncodeSeries (r : ingester.WALRecord) (b : slice Byte.byte) (next : nat)
  : slice Byte.byte * nat :=
  append b (Byte.x01 :: flat_map (λ _, repeat Byte.x2a 8) (elems (ingester.Series r))) next.

Definition EncodeEntries (r : ingester.WALRecord) (_ : ingester.RecordType)
    (b : slice Byte.byte) (next : nat) : slice Byte.byte * nat :=
  append b (Byte.x03 :: flat_map (λ _, repeat Byte.x2b 8) (elems (ingester.RefEntries r))) next.

Definition Reset (r : ingester.WALRecord) : ingester.WALRecord :=
  {| ingester.UserID := "";
     ingester.Series := reslice0 (ingester.Series r);
     ingester.RefEntries := reslice0 (ingester.RefEntries r) |}.

#[global] Instance collaborators : Collaborators Ext WL := {
  wlog_DefaultSegmentSize := 128 * 1024 * 1024;
  wlog_NewSize := NewSize;
  wl_Close := Close;
  wl_Dir := λ h, h;
  wl_Log := Log;
  wl_Sync := λ _ x, (None, x);
  wl_NextSegmentSync := λ _ x, ((0, None), x);
  os_RemoveAll := RemoveAll;
  os_ReadDir := ReadDir;
  os_Remove := Remove;
  path_Join := join;
  filepath_Join := join;
  ingester_CurrentEntriesRec := 3;
  EncodeSeries := EncodeSeries;
  EncodeEntries := EncodeEntries;
  Reset := Reset
}.

(** A healthy disk that holds the segments 0, 3 and 7. *)
Definition disk : Ext :=
  mkExt "/tmp/wal/agent/t1" ["0"; "3"; "7"] [] false false false false.

(** The same disk with no space left: the engine rejects every append. *)
Definition full_disk : Ext :=
  mkExt "/tmp/wal/agent/t1" ["0"; "3"; "7"] [] false true false false.

(** A directory in which a file is named like a negative number. *)
Definition signed_disk : Ext :=
  mkExt "/tmp/wal/agent/t1" ["-5"; "0"; "3"] [] false false false false.

(** What [os.ReadDir] lists on [disk]. *)
Definition listing : list DirEntry :=
  [{| Name := "0"; IsDir := false |}; {| Name := "3"; IsDir := false |};
   {| Name := "7"; IsDir := false |}].

Definition logger : Logger := {| logger_id := 0 |}.

Definition registerer : Registerer := {| registerer_id := 0 |}.

Definition config : WALConfig := {| cfg_Enabled := true; cfg_Dir := "/tmp/wal" |}.

Definition world (x : Ext) : World Ext WL :=
  mkWorld x [] 1 ∅ newRecordPool.

Definition wrapper : walWrapper := mk_walWrapper "/tmp/wal/agent/t1" logger.

Definition series (n : nat) : slice record.RefSeries :=
  mkSlice 0 (repeat {| record.Ref := 1; record.Labels := [("job", "app")] |} n) n.

Definition groups (n : nat) : slice ingester.RefEntriesT :=
  mkSlice 0 (repeat {| ingester.Counter := 0; ingester.Ref := 1;
                       ingester.Entries := mkSlice 0 [] 0 |} n) n.

Definition rec (s e : nat) : ingester.WALRecord :=
  {| ingester.UserID := "t1"; ingester.Series := series s; ingester.RefEntries := groups e |}.

End Sim.

(** ** Reading a trace *)

(** The payloads of the engine append calls of a trace, in call order. *)
Fixpoint appends {WL : Type} (t : list (Event WL)) : list (list Byte.byte) :=
  match t with
  | [] => []
  | CallLog _ rec :: t' => rec :: appends t'
  | _ :: t' => appends t'
  end.

(** The entry's name is, for [strconv.Atoi], the number [segmentNum]. *)
Definition parses_to (segmentNum : Z) (f : DirEntry) : Prop :=
  strconv.Atoi (Name f) = Some segmentNum.

#[global] Instance parses_to_dec (segmentNum : Z) (f : DirEntry) :
  Decision (parses_to segmentNum f).
Proof. unfold parses_to. apply _. Defined.

(** The error [DeleteSegment] makes of the outcome of [os.Remove]. *)
Definition deleting_error (removal : option error) : option error :=
  match removal with
  | Some cause => Some (wrapError ("failed deleting segment: " ++ Error cause) cause)
  | None => None
  end.

Section payloads.

Context {Ext WL : Type} `{C : Collaborators Ext WL}.

(** The series payload of a record: what [EncodeSeries] makes of a
    zero-length buffer. *)
Definition series_payload (r : ingester.WALRecord) (p : list Byte.byte) : Prop :=
  ∃ (b : slice Byte.byte) (n : nat), elems b = [] ∧ p = elems (EncodeSeries r b n).1.

(** The entries payload: what [EncodeEntries], with the current entries
    tag, makes of a zero-length buffer. *)
Definition entries_payload (r : ingester.WALRecord) (p : list Byte.byte) : Prop :=
  ∃ (b : slice Byte.byte) (n : nat),
    elems b = [] ∧ p = elems (EncodeEntries r ingester_CurrentEntriesRec b n).1.

(** Every pointer in the record pool refers to an allocated record. *)
Definition valid_record_pool (σ : World Ext WL) : bool :=
  forallb (λ a, bool_decide (is_Some (store σ !! a)))
          (sync.contents (rPool (recordPool σ))).

(** The contract of [WALRecord.Reset] that the pool relies on: the user is
    cleared and both lists are cut to zero length on their own arrays. *)
Definition Reset_truncates : Prop :=
  ∀ r, ingester.UserID (Reset r) = ""
       ∧ ingester.Series (Reset r) = reslice0 (ingester.Series r)
       ∧ ingester.RefEntries (Reset r) = reslice0 (ingester.RefEntries r).

(** The contract of the engine that [Dir] relies on: a handle reports the
    directory it was opened on. *)
Definition NewSize_keeps_dir : Prop :=
  ∀ l g d s c x h x', wlog_NewSize l g d s c x = (inl h, x') → wl_Dir h = d.

End payloads.

(** ** Programs over the interface *)

(** [k] zero digits: the padding of the engine's segment file names. *)
Fixpoint zeros (k : nat) : string :=
  match k with
  | O => ""
  | S k' => String "0" (zeros k')
  end.

(** One call of a method of the [WAL] interface. *)
Inductive Op : Type :=
| OpLog (record : option ingester.WALRecord)
| OpDelete
| OpSync
| OpDir
| OpDeleteSegment (segmentNum : Z)
| OpNextSegment.

(** What the call returned. *)
Inductive Answer : Type :=
| AError (err : option error)
| ADir (dir : string)
| ASegment (segment : Z) (err : option error).

(** What every method of the disabled variant returns. *)
Definition noop_answer (op : Op) : Answer :=
  match op with
  | OpLog _ | OpDelete | OpSync | OpDeleteSegment _ => AError None
  | OpDir => ADir ""
  | OpNextSegment => ASegment 0 None
  end.

(** How many payloads a record holds: one per non-empty list. *)
Definition payload_count (record : option ingester.WALRecord) : nat :=
  match record with
  | None => 0
  | Some r =>
      ((if (len (ingester.Series r) =? 0)%nat then 0 else 1)
       + (if (len (ingester.RefEntries r) =? 0)%nat then 0 else 1))%nat
  end.

(** Every slice that waits in the entry pool or the byte pool has length
    zero. *)
Definition pool_truncated (p : resettingPool) : Prop :=
  Forall (λ s, elems s = []) (sync.contents (ePool p))
  ∧ Forall (λ s, elems s = []) (sync.contents (bPool p)).

(** Two worlds that differ at most in the pools. *)
Definition same_outside_pool {Ext WL : Type} (σ σ' : World Ext WL) : Prop :=
  ext σ' = ext σ ∧ trace σ' = trace σ ∧ next σ' = next σ ∧ store σ' = store σ.

Section programs.

Context {Ext WL : Type} `{C : Collaborators Ext WL}.

(** A method call on a value that implements [WAL]. *)
Definition do_op {T : Type} `{!WAL (Ext := Ext) (WL := WL) T} (t : T) (op : Op)
  : M (World Ext WL) Answer :=
  match op with
  | OpLog record => err ← Log t record; mret (AError err)
  | OpDelete => err ← Delete t; mret (AError err)
  | OpSync => err ← Sync t; mret (AError err)
  | OpDir => dir ← Dir t; mret (ADir dir)
  | OpDeleteSegment segmentNum => err ← DeleteSegment t segmentNum; mret (AError err)
  | OpNextSegment => '(n, err) ← NextSegment t; mret (ASegment n err)
  end.

(** A method call on an interface value: dynamic dispatch, and a panic on
    the nil interface. *)
Definition WALValue_do (v : @WALValue WL) (op : Op) : M (World Ext WL) Answer :=
  match v with
  | nilWAL => panic "invalid memory address or nil pointer dereference"
  | ofNoopWAL n => do_op n op
  | ofWalWrapper w => do_op w op
  end.

(** Calls in a row. *)
Fixpoint do_ops (step : Op → M (World Ext WL) Answer) (ops : list Op)
  : M (World Ext WL) (list Answer) :=
  match ops with
  | [] => mret []
  | op :: rest =>
      a ← step op;
      answers ← do_ops step rest;
      mret (a :: answers)
  end.

(** The calls a wrapper may make: engine calls on its own handle, the
    listing and the removal of its own directory, the removal of an entry
    of that directory whose name parses as a number, and log lines on its
    own logger. *)
Definition confined (w : @walWrapper WL) (e : Event WL) : Prop :=
  match e with
  | CallNewSize _ _ _ _ _ => False
  | CallClose h | CallLog h _ | CallSync h | CallNextSegmentSync h => h = wal w
  | CallRemoveAll path => path = wl_Dir (wal w)
  | CallReadDir name => name = wl_Dir (wal w)
  | CallRemove name =>
      ∃ entry, name = filepath_Join [wl_Dir (wal w); entry]
               ∧ is_Some (strconv.Atoi entry)
  | LogWarn l _ => l = log w
  end.

End programs.

(** ** More simulated worlds *)

(** The simulation with a directory that cannot be read to its end:
    [os.ReadDir] returns the entries it has read and an error. *)
Module Unreadable.

Definition ReadDir (_ : string) (x : Sim.Ext) : list DirEntry * option error :=
  (map (λ n, {| Name := n; IsDir := false |}) (Sim.entries x),
   Some (errorString "readdirent /tmp/wal/agent/t1: input/output error")).

Definition collaborators : Collaborators Sim.Ext Sim.WL := {|
  wlog_DefaultSegmentSize := 128 * 1024 * 1024;
  wlog_NewSize := Sim.NewSize;
  wl_Close := Sim.Close;
  wl_Dir := λ h, h;
  wl_Log := Sim.Log;
  wl_Sync := λ _ x, (None, x);
  wl_NextSegmentSync := λ _ x, ((0, None), x);
  os_RemoveAll := Sim.RemoveAll;
  os_ReadDir := ReadDir;
  os_Remove := Sim.Remove;
  path_Join := Sim.join;
  filepath_Join := Sim.join;
  ingester_CurrentEntriesRec := 3;
  EncodeSeries := Sim.EncodeSeries;
  EncodeEntries := Sim.EncodeEntries;
  Reset := Sim.Reset
|}.

End Unreadable.

(** A world in which the runtime hands out no byte buffer at the next two
    [Get]s, as after garbage collections. *)
Definition deaf_world : World Sim.Ext Sim.WL :=
  mkWorld Sim.disk [] 1 ∅
    (mkResettingPool sync.empty sync.empty (sync.mkPool [] [None; None])).

(** A directory whose segment files carry the engine's eight-digit names. *)
Definition padded_disk : Sim.Ext :=
  Sim.mkExt "/tmp/wal/agent/t1" ["00000002"; "00000003"; "checkpoint.00000001"] []
    false false false false.

(** * Properties *)

Section properties.

Context {Ext WL : Type} `{C : Collaborators Ext WL}.

Local Abbreviation World := (World Ext WL).

Implicit Types (w : @walWrapper WL) (σ : World) (r : ingester.WALRecord).

(** Unfolds one layer of the monad and of the world accessors. *)
Ltac go_unfold :=
  unfold mbind, M_bind, mret, M_ret, panic, deref, zoom, local_get, local_set,
    with_defer, call, call_ro, alloc, level_Warn, set_recordPool, set_store, get_world,
    make in *.

(** Inside [Log], once the buffer is borrowed and the lengths of the two
    lists are known: runs the body up to the first encoder call. *)
Ltac enter_body Hget Hs He :=
  rewrite Hget; unfold walWrapper_Log_body; go_unfold; simpl; unfold len;
  rewrite Hs, He; simpl.

Lemma appends_app (t1 t2 : list (Event WL)) :
  appends (t1 ++ t2) = (appends t1 ++ appends t2)%list.
Proof.
  induction t1 as [|e t1 IH]; [reflexivity|].
  destruct e; simpl; rewrite ?IH; reflexivity.
Qed.

(** C1: for every record whose Series list is empty and whose RefEntries
    list is empty, [Log] on the durable variant returns success and leaves
    the world as it was: the trace gains no call, so the engine is asked for
    no append. *)
Theorem Log_empty_record_no_append w r σ :
  elems (ingester.Series r) = [] →
  elems (ingester.RefEntries r) = [] →
  walWrapper_Log w (Some r) σ = (Return None, σ)
  ∧ appends (trace (walWrapper_Log w (Some r) σ).2) = appends (trace σ).
Proof.
  intros Hs He.
  assert (Hrun : walWrapper_Log w (Some r) σ = (Return None, σ)).
  { unfold walWrapper_Log. go_unfold. simpl. unfold len. rewrite Hs, He. reflexivity. }
  rewrite Hrun. split; reflexivity.
Qed.

(** C9: [Log] on the durable variant with a nil record pointer returns
    normally (no panic) with a nil error, and the world is unchanged: the
    engine is not invoked. *)
Theorem Log_nil_record_returns_nil w σ :
  walWrapper_Log w None σ = (Return None, σ).
Proof. reflexivity. Qed.

(** C6: on the disabled variant every operation, called through the [WAL]
    interface with any record and any segment number, returns success;
    [Dir] returns the empty string and [NextSegment] returns 0; each leaves
    the world unchanged, so no engine or file-system call is made. *)
Theorem noopWAL_every_operation_is_noop (n : noopWAL) (record : option ingester.WALRecord)
    (segmentNum : Z) σ :
  Log n record σ = (Return None, σ)
  ∧ Delete n σ = (Return None, σ)
  ∧ Sync n σ = (Return None, σ)
  ∧ DeleteSegment n segmentNum σ = (Return None, σ)
  ∧ Dir n σ = (Return "", σ)
  ∧ NextSegment n σ = (Return (0, None), σ).
Proof. repeat split. Qed.

(** C5: [Delete] on the durable variant closes the engine and then asks for
    the removal of the WAL directory whether or not the close failed; a
    close failure only produces a warning log line between the two calls,
    and the returned value is the outcome of [os.RemoveAll]. *)
Theorem Delete_removes_directory_after_close w σ :
  let dir := wl_Dir (wal w) in
  let closing := wl_Close (wal w) (ext σ) in
  let removal := os_RemoveAll dir closing.2 in
  let warning :=
    match closing.1 with
    | Some e => [LogWarn (log w) [("msg", LString "failed to close WAL"); ("err", LError e)]]
    | None => []
    end in
  ∃ σ',
    walWrapper_Delete w σ = (Return removal.1, σ')
    ∧ ext σ' = removal.2
    ∧ trace σ' = (trace σ ++ [CallClose (wal w)] ++ warning ++ [CallRemoveAll dir])%list.
Proof.
  unfold walWrapper_Delete. go_unfold. simpl.
  destruct (wl_Close (wal w) (ext σ)) as [[e|] x1]; simpl;
    destruct (os_RemoveAll (wl_Dir (wal w)) x1) as [rerr x2]; simpl;
    eexists; repeat split; simpl; rewrite <- ?app_assoc; reflexivity.
Qed.

(** *** newWAL *)

(** C7: for every configuration, client name and tenant id, [newWAL] with
    [Enabled = false] returns the disabled variant without touching the
    world; with [Enabled = true] it opens the engine on
    [path.Join(cfg.Dir, clientName, tenantID)] and returns a wrapper of the
    handle, whose [Dir] is that join, or returns the engine's construction
    error as it is, with a nil WAL. *)
Theorem newWAL_selects_variant (l : Logger) (g : Registerer) (cfg : WALConfig)
    (clientName tenantID : string) σ :
  NewSize_keeps_dir →
  let dir := path_Join [cfg_Dir cfg; clientName; tenantID] in
  let run := newWAL l g cfg clientName tenantID σ in
  if cfg_Enabled cfg then
    trace run.2 = (trace σ ++ [CallNewSize l g dir wlog_DefaultSegmentSize false])%list
    ∧ match wlog_NewSize l g dir wlog_DefaultSegmentSize false (ext σ) with
      | (inl h, x) =>
          run.1 = Return (ofWalWrapper (mk_walWrapper h l), None)
          ∧ ext run.2 = x
          ∧ Dir (mk_walWrapper h l) run.2 = (Return dir, run.2)
      | (inr err, x) =>
          run.1 = Return (nilWAL, Some err) ∧ ext run.2 = x
      end
  else run = (Return (ofNoopWAL NoopWAL, None), σ).
Proof.
  intros Hdir dir run. subst run. unfold newWAL.
  destruct (cfg_Enabled cfg); simpl; [|reflexivity].
  fold dir. go_unfold. simpl.
  destruct (wlog_NewSize l g dir wlog_DefaultSegmentSize false (ext σ))
    as [[h|err] x] eqn:Hnew; simpl; repeat split.
  unfold walWrapper_Dir, mret, M_ret. simpl.
  rewrite (Hdir _ _ _ _ _ _ _ _ Hnew). reflexivity.
Qed.

(** *** DeleteSegment *)

Lemma Atoi_empty : strconv.Atoi "" = None.
Proof. reflexivity. Qed.

(** What [strconv.Atoi] accepts and rejects. *)
Example Atoi_examples :
  strconv.Atoi "3" = Some 3
  ∧ strconv.Atoi "00000007" = Some 7
  ∧ strconv.Atoi "+3" = Some 3
  ∧ strconv.Atoi "-5" = Some (-5)
  ∧ strconv.Atoi "-" = None
  ∧ strconv.Atoi "3.tmp" = None
  ∧ strconv.Atoi "checkpoint.00000002" = None
  ∧ strconv.Atoi "9223372036854775807" = Some maxInt
  ∧ strconv.Atoi "9223372036854775808" = None
  ∧ strconv.Atoi "-9223372036854775808" = Some minInt.
Proof. repeat split. Qed.

Lemma digit_bounds (c : ascii) (d : Z) : strconv.digit c = Some d → (0 ≤ d ≤ 9)%Z.
Proof.
  unfold strconv.digit. intros H.
  destruct ((48 <=? Z.of_N (N_of_ascii c)) && (Z.of_N (N_of_ascii c) <=? 57))%Z eqn:E;
    [|discriminate].
  apply andb_true_iff in E as [E1 E2]. injection H as <-. lia.
Qed.

Lemma digits_nonneg (s : string) :
  ∀ acc n, (0 ≤ acc)%Z → strconv.digits s acc = Some n → (0 ≤ n)%Z.
Proof.
  induction s as [|c s IH]; simpl; intros acc n Hacc H.
  - injection H as <-. exact Hacc.
  - destruct (strconv.digit c) as [d|] eqn:Hd; [|discriminate].
    apply digit_bounds in Hd. apply (IH (acc * 10 + d)); [lia|exact H].
Qed.

(** A parsed number is an [int]. *)
Lemma Atoi_in_int (s : string) (n : Z) :
  strconv.Atoi s = Some n → (minInt ≤ n ≤ maxInt)%Z.
Proof.
  unfold strconv.Atoi. destruct s as [|c rest]; [discriminate|].
  destruct (if Ascii.eqb c "-" || Ascii.eqb c "+" then rest else String c rest);
    [discriminate|].
  destruct (strconv.digits _ 0) as [m|]; [|discriminate].
  destruct ((minInt <=? (if Ascii.eqb c "-" then - m else m))
            && ((if Ascii.eqb c "-" then - m else m) <=? maxInt))%Z eqn:E;
    [|discriminate].
  intros [= <-]. apply andb_true_iff in E as [E1 E2]. lia.
Qed.

(** Only a name that starts with a minus sign parses to a negative number. *)
Lemma Atoi_negative_has_minus (s : string) (n : Z) :
  strconv.Atoi s = Some n → (n < 0)%Z → ∃ rest, s = String "-" rest.
Proof.
  unfold strconv.Atoi. destruct s as [|c rest]; [discriminate|].
  destruct (Ascii.eqb c "-") eqn:Hc.
  - apply Ascii.eqb_eq in Hc as ->. intros _ _. exists rest. reflexivity.
  - simpl.
    destruct (if Ascii.eqb c "+" then rest else String c rest) as [|c' body'] eqn:Hb;
      [discriminate|].
    destruct (strconv.digits (String c' body') 0) as [m|] eqn:Hm; [|discriminate].
    apply digits_nonneg in Hm; [|lia].
    destruct ((minInt <=? m) && (m <=? maxInt))%Z; [|discriminate].
    intros [= <-] Hneg. lia.
Qed.

Lemma parses_to_nonempty (segmentNum : Z) (f : DirEntry) :
  parses_to segmentNum f → Name f ≠ "".
Proof. unfold parses_to. intros H E. rewrite E in H. discriminate. Qed.

(** The loop returns the name of the first entry that parses to the
    number, and keeps the initial [segmentName] when there is none. *)
Lemma DeleteSegment_loop_find (files : list DirEntry) (segmentNum : Z) (name0 : string) :
  walWrapper_DeleteSegment_loop files segmentNum name0
  = from_option (λ m, Name m.2) name0 (list_find (parses_to segmentNum) files).
Proof.
  induction files as [|f files IH]; [reflexivity|].
  cbn [walWrapper_DeleteSegment_loop list_find].
  destruct (decide (parses_to segmentNum f)) as [Hp|Hp].
  - unfold parses_to in Hp. rewrite Hp, Z.eqb_refl. reflexivity.
  - assert (Hskip : match strconv.Atoi (Name f) with
                    | Some n => if (n =? segmentNum)%Z then Name f
                                else walWrapper_DeleteSegment_loop files segmentNum name0
                    | None => walWrapper_DeleteSegment_loop files segmentNum name0
                    end = walWrapper_DeleteSegment_loop files segmentNum name0).
    { unfold parses_to in Hp. destruct (strconv.Atoi (Name f)) as [n|]; [|reflexivity].
      destruct (Z.eqb_spec n segmentNum) as [->|]; [contradiction|reflexivity]. }
    rewrite Hskip, IH.
    destruct (list_find (parses_to segmentNum) files) as [[i m]|]; reflexivity.
Qed.

(** C3, as the code has it: [DeleteSegment] parses each entry name with
    [strconv.Atoi], that is as a base-10 integer with an optional sign;
    an entry that does not parse is passed over without error; the scan
    ends at the first entry that parses to the number; and when no entry
    does, the call fails with the message "segment not found", having only
    read the directory: the collaborators' state is as before. *)
Theorem DeleteSegment_not_found w (segmentNum : Z) σ (files : list DirEntry) :
  os_ReadDir (wl_Dir (wal w)) (ext σ) = (files, None) →
  (∀ f rest name0,
      strconv.Atoi (Name f) = None →
      walWrapper_DeleteSegment_loop (f :: rest) segmentNum name0
      = walWrapper_DeleteSegment_loop rest segmentNum name0)
  ∧ walWrapper_DeleteSegment_loop files segmentNum ""
    = from_option (λ m, Name m.2) "" (list_find (parses_to segmentNum) files)
  ∧ (list_find (parses_to segmentNum) files = None →
     walWrapper_DeleteSegment w segmentNum σ
     = (Return (Some (errorString "segment not found")),
        mkWorld (ext σ) (trace σ ++ [CallReadDir (wl_Dir (wal w))])
                (next σ) (store σ) (recordPool σ))).
Proof.
  intros Hread. split; [|split].
  - intros f rest name0 Hf. simpl. rewrite Hf. reflexivity.
  - apply DeleteSegment_loop_find.
  - intros Hnone. unfold walWrapper_DeleteSegment, walWrapper_Dir. go_unfold. simpl.
    rewrite Hread, DeleteSegment_loop_find, Hnone. reflexivity.
Qed.

(** C4: when some entry parses to the number, [DeleteSegment] asks the file
    system for exactly one change, the removal of that entry (the first
    such entry of the listing) under the WAL directory; whatever
    [os.Remove] of that one path leaves as it is, [DeleteSegment] leaves as
    it is.  It returns nil when the removal succeeds, and otherwise an
    error that wraps the cause and whose message is
    "failed deleting segment: " followed by the cause's message. *)
Theorem DeleteSegment_removes_the_match w (segmentNum : Z) σ (files : list DirEntry)
    (i : nat) (f : DirEntry) :
  os_ReadDir (wl_Dir (wal w)) (ext σ) = (files, None) →
  list_find (parses_to segmentNum) files = Some (i, f) →
  let dir := wl_Dir (wal w) in
  let name := filepath_Join [dir; Name f] in
  let removal := os_Remove name (ext σ) in
  ∃ σ',
    walWrapper_DeleteSegment w segmentNum σ = (Return (deleting_error removal.1), σ')
    ∧ trace σ' = (trace σ ++ [CallReadDir dir; CallRemove name])%list
    ∧ ext σ' = removal.2
    ∧ (∀ (A : Type) (observe : Ext → A),
         (∀ x, observe (os_Remove name x).2 = observe x) →
         observe (ext σ') = observe (ext σ))
    ∧ (∀ cause, removal.1 = Some cause →
         ∃ err, deleting_error removal.1 = Some err
                ∧ Unwrap err = Some cause
                ∧ Error err = "failed deleting segment: " ++ Error cause).
Proof.
  intros Hread Hfind dir name removal.
  assert (Hname : String.eqb (Name f) "" = false).
  { apply String.eqb_neq. apply (parses_to_nonempty segmentNum).
    apply list_find_Some in Hfind. tauto. }
  subst removal name dir.
  unfold walWrapper_DeleteSegment, walWrapper_Dir. go_unfold. simpl.
  rewrite Hread, DeleteSegment_loop_find, Hfind. simpl.
  rewrite Hname. simpl.
  destruct (os_Remove (filepath_Join [wl_Dir (wal w); Name f]) (ext σ))
    as [[cause|] x] eqn:Hrm; simpl.
  - eexists. split; [reflexivity|]. simpl. rewrite <- app_assoc.
    repeat split.
    + intros A observe Hobs. rewrite <- (Hobs (ext σ)), Hrm. reflexivity.
    + intros c [= <-]. eexists. repeat split.
  - eexists. split; [reflexivity|]. simpl. rewrite <- app_assoc.
    repeat split.
    + intros A observe Hobs. rewrite <- (Hobs (ext σ)), Hrm. reflexivity.
    + intros c [=].
Qed.

(** *** sync.Pool *)

(** [Get] uses up one decision of the runtime; it hands out an instance of
    the pool, which then holds the others, or it hands out nothing and the
    pool holds what it held. *)
Lemma Get_cases {A : Type} (p : sync.Pool A) :
  sync.runtime (sync.Get p).2 = tail (sync.runtime p)
  ∧ match (sync.Get p).1 with
    | Some x => x ∈ sync.contents p ∧ sync.contents p ≡ₚ x :: sync.contents (sync.Get p).2
    | None => sync.contents (sync.Get p).2 = sync.contents p
    end.
Proof.
  unfold sync.Get, sync.contents.
  destruct (sync.decision p) as [i|]; simpl; [|split; reflexivity].
  destruct (sync.items p !! i) as [x|] eqn:Hi; simpl; split; try reflexivity.
  split; [eapply list_elem_of_lookup_2; exact Hi|apply delete_Permutation; exact Hi].
Qed.

(** When the runtime decides for the newest instance, [Get] after [Put]
    hands out what was put and the pool holds what it held before. *)
Lemma Get_Put_newest {A : Type} (x : A) (p : sync.Pool A) :
  sync.decision p = Some 0%nat →
  sync.Get (sync.Put x p) = (Some x, sync.mkPool (sync.items p) (tail (sync.runtime p))).
Proof.
  intros Hd. unfold sync.Get. change (sync.decision (sync.Put x p)) with (sync.decision p).
  rewrite Hd. reflexivity.
Qed.

(** *** Log *)

(** How [GetBytes] runs: on what the pool hands out, or else on a new
    array of 1024 bytes. *)
Lemma GetBytes_run σ :
  GetBytes σ
  = (Return (default (mkSlice (next σ) [] 1024) (sync.Get (bPool (recordPool σ))).1),
     mkWorld (ext σ) (trace σ)
       (match (sync.Get (bPool (recordPool σ))).1 with
        | Some _ => next σ
        | None => S (next σ)
        end)
       (store σ)
       (mkResettingPool (rPool (recordPool σ)) (ePool (recordPool σ))
          (sync.Get (bPool (recordPool σ))).2)).
Proof.
  unfold GetBytes. go_unfold. simpl.
  destruct (sync.Get (bPool (recordPool σ))) as [[x|] bp]; reflexivity.
Qed.

(** [GetBytes] returns, and touches the byte pool and the allocator only. *)
Lemma GetBytes_returns σ :
  ∃ (b : slice Byte.byte) σ1,
    GetBytes σ = (Return b, σ1)
    ∧ ext σ1 = ext σ ∧ trace σ1 = trace σ ∧ store σ1 = store σ
    ∧ rPool (recordPool σ1) = rPool (recordPool σ)
    ∧ ePool (recordPool σ1) = ePool (recordPool σ)
    ∧ bPool (recordPool σ1) = (sync.Get (bPool (recordPool σ))).2.
Proof. rewrite GetBytes_run. eexists _, _. repeat split. Qed.

(** C2, as the code has it: for every non-empty record, [Log] on the durable
    variant appends the series payload first when Series is non-empty and
    the entries payload after it when RefEntries is non-empty.  With exactly
    one non-empty list there is exactly one append call.  With both
    non-empty there are exactly two, series first, when the series append
    succeeds; when it fails [Log] returns its error after that single call
    and the entries payload is not appended. *)
Theorem Log_appends_series_then_entries w r σ :
  elems (ingester.Series r) ≠ [] ∨ elems (ingester.RefEntries r) ≠ [] →
  ∃ (res : option error) σ' (s e : list Byte.byte),
    walWrapper_Log w (Some r) σ = (Return res, σ')
    ∧ series_payload r s ∧ entries_payload r e
    ∧ match elems (ingester.Series r), elems (ingester.RefEntries r) with
      | _ :: _, [] =>
          trace σ' = (trace σ ++ [CallLog (wal w) s])%list
          ∧ res = (wl_Log (wal w) s (ext σ)).1
      | [], _ :: _ =>
          trace σ' = (trace σ ++ [CallLog (wal w) e])%list
          ∧ res = (wl_Log (wal w) e (ext σ)).1
      | _ :: _, _ :: _ =>
          match wl_Log (wal w) s (ext σ) with
          | (Some err, _) =>
              trace σ' = (trace σ ++ [CallLog (wal w) s])%list ∧ res = Some err
          | (None, x) =>
              trace σ' = (trace σ ++ [CallLog (wal w) s; CallLog (wal w) e])%list
              ∧ res = (wl_Log (wal w) e x).1
          end
      | [], [] => False
      end.
Proof.
  intros Hne.
  destruct (GetBytes_returns σ) as (b & σ1 & Hget & Hext & Htr & _).
  assert (Hsp : ∀ (b' : slice Byte.byte) n, series_payload r (elems (EncodeSeries r (reslice0 b') n).1))
    by (intros b' n; exists (reslice0 b'), n; split; reflexivity).
  assert (Hep : ∀ (b' : slice Byte.byte) n,
             entries_payload r (elems (EncodeEntries r ingester_CurrentEntriesRec (reslice0 b') n).1))
    by (intros b' n; exists (reslice0 b'), n; split; reflexivity).
  unfold walWrapper_Log. go_unfold. simpl. unfold len.
  destruct (elems (ingester.Series r)) as [|s0 ss] eqn:Hs;
    destruct (elems (ingester.RefEntries r)) as [|e0 es] eqn:He; simpl.
  - destruct Hne; congruence.
  - enter_body Hget Hs He.
    specialize (Hep b (next σ1)).
    destruct (EncodeEntries r ingester_CurrentEntriesRec (reslice0 b) (next σ1))
      as [ebuf n1]. simpl in *.
    rewrite Hext, Htr.
    destruct (wl_Log (wal w) (elems ebuf) (ext σ)) as [[err|] x] eqn:Hlog; simpl;
      eexists _, _, (elems (EncodeSeries r (reslice0 b) 0).1), (elems ebuf);
      (split; [reflexivity|]); rewrite Hlog; auto.
  - enter_body Hget Hs He.
    specialize (Hsp b (next σ1)).
    destruct (EncodeSeries r (reslice0 b) (next σ1)) as [sbuf n1]. simpl in *.
    rewrite Hext, Htr.
    destruct (wl_Log (wal w) (elems sbuf) (ext σ)) as [[err|] x] eqn:Hlog; simpl;
      eexists _, _, (elems sbuf),
        (elems (EncodeEntries r ingester_CurrentEntriesRec (reslice0 b) 0).1);
      (split; [reflexivity|]); rewrite Hlog; auto.
  - enter_body Hget Hs He.
    specialize (Hsp b (next σ1)).
    destruct (EncodeSeries r (reslice0 b) (next σ1)) as [sbuf n1]. simpl in *.
    rewrite Hext, Htr.
    destruct (wl_Log (wal w) (elems sbuf) (ext σ)) as [[err|] x] eqn:Hlog1; simpl.
    + eexists _, _, (elems sbuf),
        (elems (EncodeEntries r ingester_CurrentEntriesRec (reslice0 b) 0).1).
      split; [reflexivity|]. rewrite Hlog1. auto.
    + specialize (Hep sbuf n1).
      destruct (EncodeEntries r ingester_CurrentEntriesRec (reslice0 sbuf) n1)
        as [ebuf n2]. simpl in *.
      destruct (wl_Log (wal w) (elems ebuf) x) as [[err|] x'] eqn:Hlog2; simpl;
        eexists _, _, (elems sbuf), (elems ebuf);
        (split; [reflexivity|]); rewrite Hlog1, Hlog2; simpl;
        rewrite <- app_assoc; auto.
Qed.

(** C10, as the code has it: every invocation of [Log] that borrows a
    byte buffer puts one buffer back before it returns, whatever the
    appends answer: the buffer that the variable [buf] holds at that
    moment, which is the slice that the last encoder has returned, cut to
    zero length on its own array and capacity.  That is the borrowed buffer
    whenever the encoders return the array and the capacity they are given,
    and otherwise the reallocated buffer that the encoder returned. *)
Theorem Log_puts_the_buffer_back w r σ :
  elems (ingester.Series r) ≠ [] ∨ elems (ingester.RefEntries r) ≠ [] →
  ∃ (b : slice Byte.byte) σ1 (res : option error) σ',
    GetBytes σ = (Return b, σ1)
    ∧ walWrapper_Log w (Some r) σ = (Return res, σ')
    ∧ let series := EncodeSeries r (reslice0 b) (next σ1) in
      let entries_alone :=
        EncodeEntries r ingester_CurrentEntriesRec (reslice0 b) (next σ1) in
      let entries_after :=
        EncodeEntries r ingester_CurrentEntriesRec (reslice0 series.1) series.2 in
      let buf :=
        match elems (ingester.Series r), elems (ingester.RefEntries r) with
        | [], _ => entries_alone.1
        | _ :: _, [] => series.1
        | _ :: _, _ :: _ =>
            match (wl_Log (wal w) (elems series.1) (ext σ)).1 with
            | Some _ => series.1
            | None => entries_after.1
            end
        end in
      recordPool σ'
      = mkResettingPool (rPool (recordPool σ1)) (ePool (recordPool σ1))
          (sync.Put (reslice0 buf) (bPool (recordPool σ1)))
      ∧ sync.contents (bPool (recordPool σ'))
        = reslice0 buf :: sync.contents (bPool (recordPool σ1))
      ∧ ((∀ r' t (b' : slice Byte.byte) n,
             array (EncodeSeries r' b' n).1 = array b'
             ∧ array (EncodeEntries r' t b' n).1 = array b') →
         array buf = array b)
      ∧ ((∀ r' t (b' : slice Byte.byte) n,
             (array (EncodeSeries r' b' n).1 = array b'
              ∧ cap (EncodeSeries r' b' n).1 = cap b')
             ∧ (array (EncodeEntries r' t b' n).1 = array b'
                ∧ cap (EncodeEntries r' t b' n).1 = cap b')) →
         reslice0 buf = reslice0 b).
Proof.
  intros Hne.
  destruct (GetBytes_returns σ) as (b & σ1 & Hget & Hext & _).
  exists b, σ1.
  assert (Hsame : ∀ s1 s2 : slice Byte.byte,
             array s1 = array s2 → cap s1 = cap s2 → reslice0 s1 = reslice0 s2).
  { intros s1 s2 Ha Hc. unfold reslice0. rewrite Ha, Hc. reflexivity. }
  unfold walWrapper_Log. go_unfold. simpl. unfold len.
  destruct (elems (ingester.Series r)) as [|s0 ss] eqn:Hs;
    destruct (elems (ingester.RefEntries r)) as [|e0 es] eqn:He; simpl.
  - destruct Hne; congruence.
  - enter_body Hget Hs He.
    destruct (EncodeEntries r ingester_CurrentEntriesRec (reslice0 b) (next σ1))
      as [ebuf n1] eqn:HE. simpl.
    destruct (wl_Log (wal w) (elems ebuf) (ext σ1)) as [[err|] x]; simpl;
      eexists _, _; (split; [reflexivity|]); (split; [reflexivity|]);
      (split; [reflexivity|]); (split; [reflexivity|]); split; intros Hkeep.
    all: try (destruct (Hkeep r ingester_CurrentEntriesRec (reslice0 b) (next σ1))
                as [_ Hk]; rewrite HE in Hk; exact Hk).
    all: destruct (Hkeep r ingester_CurrentEntriesRec (reslice0 b) (next σ1))
           as [_ [Hk1 Hk2]]; rewrite HE in Hk1, Hk2; apply Hsame; assumption.
  - enter_body Hget Hs He.
    destruct (EncodeSeries r (reslice0 b) (next σ1)) as [sbuf n1] eqn:HS. simpl.
    destruct (wl_Log (wal w) (elems sbuf) (ext σ1)) as [[err|] x]; simpl;
      eexists _, _; (split; [reflexivity|]); (split; [reflexivity|]);
      (split; [reflexivity|]); (split; [reflexivity|]); split; intros Hkeep.
    all: try (destruct (Hkeep r ingester_CurrentEntriesRec (reslice0 b) (next σ1))
                as [Hk _]; rewrite HS in Hk; exact Hk).
    all: destruct (Hkeep r ingester_CurrentEntriesRec (reslice0 b) (next σ1))
           as [[Hk1 Hk2] _]; rewrite HS in Hk1, Hk2; apply Hsame; assumption.
  - enter_body Hget Hs He. rewrite <- Hext.
    destruct (EncodeSeries r (reslice0 b) (next σ1)) as [sbuf n1] eqn:HS. simpl.
    destruct (wl_Log (wal w) (elems sbuf) (ext σ1)) as [[err|] x]; simpl.
    + eexists _, _; (split; [reflexivity|]); (split; [reflexivity|]);
      (split; [reflexivity|]); (split; [reflexivity|]); split; intros Hkeep.
      * destruct (Hkeep r ingester_CurrentEntriesRec (reslice0 b) (next σ1))
          as [Hk _]; rewrite HS in Hk; exact Hk.
      * destruct (Hkeep r ingester_CurrentEntriesRec (reslice0 b) (next σ1))
          as [[Hk1 Hk2] _]; rewrite HS in Hk1, Hk2; apply Hsame; assumption.
    + destruct (EncodeEntries r ingester_CurrentEntriesRec (reslice0 sbuf) n1)
        as [ebuf n2] eqn:HE. simpl.
      destruct (wl_Log (wal w) (elems ebuf) x) as [[err|] x']; simpl;
        eexists _, _; (split; [reflexivity|]); (split; [reflexivity|]);
        (split; [reflexivity|]); (split; [reflexivity|]); split; intros Hkeep.
      all: try (destruct (Hkeep r ingester_CurrentEntriesRec (reslice0 sbuf) n1) as [_ Hk2];
                destruct (Hkeep r ingester_CurrentEntriesRec (reslice0 b) (next σ1))
                  as [Hk1 _];
                rewrite HE in Hk2; rewrite HS in Hk1; simpl in *; congruence).
      all: destruct (Hkeep r ingester_CurrentEntriesRec (reslice0 sbuf) n1)
             as [_ [Ha2 Hc2]];
           destruct (Hkeep r ingester_CurrentEntriesRec (reslice0 b) (next σ1))
             as [[Ha1 Hc1] _];
           rewrite HE in Ha2, Hc2; rewrite HS in Ha1, Hc1; simpl in *;
           apply Hsame; congruence.
Qed.

(** *** resettingPool *)

Lemma valid_record_pool_lookup σ (a : nat) :
  valid_record_pool σ = true →
  a ∈ sync.contents (rPool (recordPool σ)) →
  is_Some (store σ !! a).
Proof.
  unfold valid_record_pool. rewrite forallb_forall. intros Hall Ha.
  apply list_elem_of_In in Ha. apply Hall in Ha.
  apply bool_decide_eq_true in Ha. exact Ha.
Qed.

Lemma PutBytes_run (x : slice Byte.byte) σ :
  PutBytes x σ
  = (Return tt,
     mkWorld (ext σ) (trace σ) (next σ) (store σ)
       (mkResettingPool (rPool (recordPool σ)) (ePool (recordPool σ))
          (sync.Put (reslice0 x) (bPool (recordPool σ))))).
Proof. reflexivity. Qed.

Lemma PutEntries_run (es : slice logproto.Entry) σ :
  PutEntries es σ
  = (Return tt,
     mkWorld (ext σ) (trace σ) (next σ) (store σ)
       (mkResettingPool (rPool (recordPool σ))
          (sync.Put (reslice0 es) (ePool (recordPool σ))) (bPool (recordPool σ)))).
Proof. reflexivity. Qed.

Lemma PutRecord_run (a : nat) σ :
  PutRecord a σ
  = (Return tt,
     mkWorld (ext σ) (trace σ) (next σ) (store σ)
       (mkResettingPool (sync.Put a (rPool (recordPool σ)))
          (ePool (recordPool σ)) (bPool (recordPool σ)))).
Proof. reflexivity. Qed.

(** How [GetEntries] runs: on what the pool hands out, or else on a new
    array of 512 entries. *)
Lemma GetEntries_run σ :
  GetEntries σ
  = (Return (default (mkSlice (next σ) [] 512) (sync.Get (ePool (recordPool σ))).1),
     mkWorld (ext σ) (trace σ)
       (match (sync.Get (ePool (recordPool σ))).1 with
        | Some _ => next σ
        | None => S (next σ)
        end)
       (store σ)
       (mkResettingPool (rPool (recordPool σ)) (sync.Get (ePool (recordPool σ))).2
          (bPool (recordPool σ)))).
Proof.
  unfold GetEntries. go_unfold. simpl.
  destruct (sync.Get (ePool (recordPool σ))) as [[x|] ep]; reflexivity.
Qed.

(** How [GetRecord] runs on a pooled pointer to an allocated record, and
    how it runs when the pool hands out nothing. *)
Lemma GetRecord_run_pooled σ (a : nat) (r : ingester.WALRecord) :
  (sync.Get (rPool (recordPool σ))).1 = Some a →
  store σ !! a = Some r →
  GetRecord σ
  = (Return a,
     mkWorld (ext σ) (trace σ) (next σ) (<[a := Reset r]> (store σ))
       (mkResettingPool (sync.Get (rPool (recordPool σ))).2 (ePool (recordPool σ))
          (bPool (recordPool σ)))).
Proof.
  intros Hg Hr. unfold GetRecord. go_unfold. simpl.
  destruct (sync.Get (rPool (recordPool σ))) as [[x|] rp]; simpl in *; [|discriminate].
  injection Hg as ->. rewrite Hr. reflexivity.
Qed.

Lemma GetRecord_run_new σ :
  (sync.Get (rPool (recordPool σ))).1 = None →
  GetRecord σ
  = (Return (next σ),
     mkWorld (ext σ) (trace σ) (S (next σ))
       (<[next σ := Reset zeroRecord]> (<[next σ := zeroRecord]> (store σ)))
       (mkResettingPool (sync.Get (rPool (recordPool σ))).2 (ePool (recordPool σ))
          (bPool (recordPool σ)))).
Proof.
  intros Hg. unfold GetRecord, new_WALRecord. go_unfold. simpl.
  destruct (sync.Get (rPool (recordPool σ))) as [[x|] rp]; simpl in *; [discriminate|].
  rewrite lookup_insert_eq. reflexivity.
Qed.

(** With a valid pool [GetRecord] returns: it hands out, after its [Reset],
    a record that was pooled or a new one, and the pool is valid again. *)
Lemma GetRecord_returns σ :
  valid_record_pool σ = true →
  ∃ (a : nat) (r0 : ingester.WALRecord) σ1,
    GetRecord σ = (Return a, σ1)
    ∧ store σ1 !! a = Some (Reset r0)
    ∧ valid_record_pool σ1 = true
    ∧ (((sync.Get (rPool (recordPool σ))).1 = Some a
        ∧ store σ !! a = Some r0 ∧ next σ1 = next σ)
       ∨ ((sync.Get (rPool (recordPool σ))).1 = None
          ∧ a = next σ ∧ r0 = zeroRecord ∧ next σ1 = S (next σ))).
Proof.
  intros Hvalid.
  pose proof (valid_record_pool_lookup σ) as Hlook.
  destruct (Get_cases (rPool (recordPool σ))) as [_ Hc].
  assert (Hspec : ∀ σ', (∀ a, a ∈ sync.contents (rPool (recordPool σ')) →
                              is_Some (store σ' !! a)) →
                        valid_record_pool σ' = true).
  { intros σ' H. unfold valid_record_pool. apply forallb_forall. intros a Ha.
    apply bool_decide_eq_true. apply H. apply list_elem_of_In. exact Ha. }
  destruct ((sync.Get (rPool (recordPool σ))).1) as [a|] eqn:Hg.
  - destruct Hc as [Hin Hperm]. destruct (Hlook a Hvalid Hin) as [r0 Hr0].
    exists a, r0. eexists. rewrite (GetRecord_run_pooled σ a r0 Hg Hr0).
    split; [reflexivity|]. simpl. split; [apply lookup_insert_eq|].
    split; [|left; auto].
    apply Hspec. simpl. intros a' Ha'. apply lookup_insert_is_Some'. right.
    apply (Hlook a' Hvalid). rewrite Hperm. right. exact Ha'.
  - exists (next σ), zeroRecord. eexists. rewrite (GetRecord_run_new σ Hg).
    split; [reflexivity|]. simpl. split; [apply lookup_insert_eq|].
    split; [|right; auto].
    apply Hspec. simpl. intros a' Ha'. apply lookup_insert_is_Some'. right.
    apply lookup_insert_is_Some'. right. apply (Hlook a' Hvalid). rewrite <- Hc. exact Ha'.
Qed.

(** C8, as the code has it: in each of the three pools, when a [Get], a
    [Put] and a [Get] follow each other and the second [Get] hands out the
    instance that was put, that instance has zero-length content on its own
    array and capacity, and no new array is made.  [sync.Pool] does not
    promise that much: the second [Get] hands out the instance that was put,
    or another pooled one, or a new one, as the runtime decides.
    [PutBytes] and [PutEntries] cut the slice to zero length before they
    pool it.  [PutRecord] pools the pointer and leaves the record as the
    borrower wrote it; it is [GetRecord] that calls [Reset] on the record
    before handing it out, and [Reset] cuts both lists to zero length on
    their arrays. *)
Theorem pool_round_trip σ (x : slice Byte.byte) (es : slice logproto.Entry)
    (r1 : ingester.WALRecord) :
  valid_record_pool σ = true →
  Reset_truncates →
  (∃ b σ1 σ2 b' σ3,
      GetBytes σ = (Return b, σ1)
      ∧ PutBytes x σ1 = (Return tt, σ2)
      ∧ bPool (recordPool σ2) = sync.Put (reslice0 x) (bPool (recordPool σ1))
      ∧ GetBytes σ2 = (Return b', σ3)
      ∧ ((b' ∈ reslice0 x :: sync.contents (bPool (recordPool σ1))
          ∧ next σ3 = next σ1)
         ∨ (b' = mkSlice (next σ1) [] 1024 ∧ next σ3 = S (next σ1)))
      ∧ (sync.decision (bPool (recordPool σ1)) = Some 0%nat →
         b' = reslice0 x ∧ next σ3 = next σ1))
  ∧ (∃ b σ1 σ2 b' σ3,
      GetEntries σ = (Return b, σ1)
      ∧ PutEntries es σ1 = (Return tt, σ2)
      ∧ ePool (recordPool σ2) = sync.Put (reslice0 es) (ePool (recordPool σ1))
      ∧ GetEntries σ2 = (Return b', σ3)
      ∧ ((b' ∈ reslice0 es :: sync.contents (ePool (recordPool σ1))
          ∧ next σ3 = next σ1)
         ∨ (b' = mkSlice (next σ1) [] 512 ∧ next σ3 = S (next σ1)))
      ∧ (sync.decision (ePool (recordPool σ1)) = Some 0%nat →
         b' = reslice0 es ∧ next σ3 = next σ1))
  ∧ (∃ a r0 σ1 σ1' σ2 a' r' σ3,
      GetRecord σ = (Return a, σ1)
      ∧ store σ1 !! a = Some (Reset r0)
      ∧ store_record a r1 σ1 = (Return tt, σ1')
      ∧ PutRecord a σ1' = (Return tt, σ2)
      ∧ rPool (recordPool σ2) = sync.Put a (rPool (recordPool σ1))
      ∧ store σ2 !! a = Some r1
      ∧ GetRecord σ2 = (Return a', σ3)
      ∧ store σ3 !! a' = Some (Reset r')
      ∧ ((a' ∈ a :: sync.contents (rPool (recordPool σ1))
          ∧ store σ2 !! a' = Some r' ∧ next σ3 = next σ2)
         ∨ (a' = next σ2 ∧ r' = zeroRecord ∧ next σ3 = S (next σ2)))
      ∧ (sync.decision (rPool (recordPool σ1)) = Some 0%nat →
         a' = a ∧ r' = r1 ∧ next σ3 = next σ1)
      ∧ ingester.UserID (Reset r') = ""
      ∧ ingester.Series (Reset r') = reslice0 (ingester.Series r')
      ∧ ingester.RefEntries (Reset r') = reslice0 (ingester.RefEntries r')).
Proof.
  intros Hvalid Hreset. split; [|split].
  - destruct (GetBytes_returns σ) as (b & σ1 & Hget & _).
    exists b, σ1.
    exists (mkWorld (ext σ1) (trace σ1) (next σ1) (store σ1)
              (mkResettingPool (rPool (recordPool σ1)) (ePool (recordPool σ1))
                 (sync.Put (reslice0 x) (bPool (recordPool σ1))))).
    rewrite Hget, PutBytes_run, GetBytes_run. simpl.
    pose proof (Get_cases (sync.Put (reslice0 x) (bPool (recordPool σ1)))) as [_ Hc].
    pose proof (Get_Put_newest (reslice0 x) (bPool (recordPool σ1))) as Hn.
    destruct (sync.Get (sync.Put (reslice0 x) (bPool (recordPool σ1))))
      as [[y|] bp]; simpl in *;
      eexists _, _; (split; [reflexivity|]); (split; [reflexivity|]);
      (split; [reflexivity|]); (split; [reflexivity|]); simpl; split.
    + left. split; [apply Hc|reflexivity].
    + intros Hd. specialize (Hn Hd). injection Hn as -> _. split; reflexivity.
    + right. split; reflexivity.
    + intros Hd. specialize (Hn Hd). discriminate Hn.
  - assert (Hget : ∃ b σ1, GetEntries σ = (Return b, σ1))
      by (rewrite GetEntries_run; eauto).
    destruct Hget as (b & σ1 & Hget).
    exists b, σ1.
    exists (mkWorld (ext σ1) (trace σ1) (next σ1) (store σ1)
              (mkResettingPool (rPool (recordPool σ1))
                 (sync.Put (reslice0 es) (ePool (recordPool σ1)))
                 (bPool (recordPool σ1)))).
    rewrite Hget, PutEntries_run, GetEntries_run. simpl.
    pose proof (Get_cases (sync.Put (reslice0 es) (ePool (recordPool σ1)))) as [_ Hc].
    pose proof (Get_Put_newest (reslice0 es) (ePool (recordPool σ1))) as Hn.
    destruct (sync.Get (sync.Put (reslice0 es) (ePool (recordPool σ1))))
      as [[y|] bp]; simpl in *;
      eexists _, _; (split; [reflexivity|]); (split; [reflexivity|]);
      (split; [reflexivity|]); (split; [reflexivity|]); simpl; split.
    + left. split; [apply Hc|reflexivity].
    + intros Hd. specialize (Hn Hd). injection Hn as -> _. split; reflexivity.
    + right. split; reflexivity.
    + intros Hd. specialize (Hn Hd). discriminate Hn.
  - destruct (GetRecord_returns σ Hvalid) as (a & r0 & σ1 & Hget & Hst & Hvalid1 & _).
    pose proof (valid_record_pool_lookup σ1) as Hlook1.
    set (σ2 := mkWorld (ext σ1) (trace σ1) (next σ1) (<[a := r1]> (store σ1))
                 (mkResettingPool (sync.Put a (rPool (recordPool σ1)))
                    (ePool (recordPool σ1)) (bPool (recordPool σ1)))).
    assert (Hvalid2 : valid_record_pool σ2 = true).
    { unfold valid_record_pool. apply forallb_forall. intros a' Ha'.
      apply bool_decide_eq_true. simpl in *. apply lookup_insert_is_Some'.
      destruct Ha' as [<-|Ha']; [left; reflexivity|right].
      apply (Hlook1 a' Hvalid1). apply list_elem_of_In. exact Ha'. }
    destruct (GetRecord_returns σ2 Hvalid2) as (a' & r' & σ3 & Hget2 & Hst3 & _ & Hcase).
    destruct (Hreset r') as (HU & HS & HE).
    exists a, r0, σ1. eexists. exists σ2, a', r', σ3.
    split; [exact Hget|]. split; [exact Hst|]. split; [reflexivity|].
    split; [reflexivity|]. split; [reflexivity|].
    split; [apply lookup_insert_eq|]. split; [exact Hget2|]. split; [exact Hst3|].
    split.
    { destruct Hcase as [(Hg2 & Hr2 & Hn2)|(Hg2 & Ha2 & Hr2 & Hn2)].
      - left. split; [|split; assumption].
        destruct (Get_cases (rPool (recordPool σ2))) as [_ Hc2].
        rewrite Hg2 in Hc2. apply Hc2.
      - right. split; [exact Ha2|]. split; [exact Hr2|exact Hn2]. }
    split; [|split; [exact HU|split; [exact HS|exact HE]]].
    intros Hd. pose proof (Get_Put_newest a (rPool (recordPool σ1)) Hd) as Hn.
    change (sync.Put a (rPool (recordPool σ1))) with (rPool (recordPool σ2)) in Hn.
    rewrite Hn in Hcase. simpl in Hcase.
    destruct Hcase as [([= <-] & Hr & Hnext)|([=] & _)].
    rewrite lookup_insert_eq in Hr. injection Hr as <-. repeat split. exact Hnext.
Qed.

End properties.


(** * The statements on the simulated world *)

Section runs.

Local Open Scope nat_scope.

Local Abbreviation σ0 := (Sim.world Sim.disk).

(** An empty record on the simulated engine: nothing is appended. *)
Lemma Log_empty_record_no_append_witness :
  elems (ingester.Series (Sim.rec 0 0)) = []
  ∧ elems (ingester.RefEntries (Sim.rec 0 0)) = []
  ∧ walWrapper_Log Sim.wrapper (Some (Sim.rec 0 0)) σ0 = (Return None, σ0).
Proof.
  split; [reflexivity|]. split; [reflexivity|].
  apply (Log_empty_record_no_append Sim.wrapper (Sim.rec 0 0) σ0); reflexivity.
Defined.

(** One series and one group of entries on a healthy engine: two appends,
    the series payload first. *)
Lemma Log_appends_series_then_entries_witness :
  (elems (ingester.Series (Sim.rec 1 1)) ≠ []
   ∨ elems (ingester.RefEntries (Sim.rec 1 1)) ≠ [])
  ∧ ∃ res σ' s e,
      walWrapper_Log Sim.wrapper (Some (Sim.rec 1 1)) σ0 = (Return res, σ')
      ∧ series_payload (Sim.rec 1 1) s
      ∧ entries_payload (Sim.rec 1 1) e
      ∧ trace σ' = [CallLog (wal Sim.wrapper) s; CallLog (wal Sim.wrapper) e].
Proof.
  assert (Hne : elems (ingester.Series (Sim.rec 1 1)) ≠ []
                ∨ elems (ingester.RefEntries (Sim.rec 1 1)) ≠ [])
    by (left; discriminate).
  split; [exact Hne|].
  destruct (Log_appends_series_then_entries Sim.wrapper (Sim.rec 1 1) σ0 Hne)
    as (res & σ' & s & e & Hrun & Hs & He & Hcase).
  exists res, σ', s, e. simpl in Hcase.
  destruct (Sim.Log "/tmp/wal/agent/t1" s Sim.disk) as [[err|] x] eqn:Hlog;
    [discriminate Hlog|].
  destruct Hcase as [Htrace _]. repeat split; assumption.
Defined.

(** The first append fails on a full disk: [Log] makes one append call, not
    two, although both lists of the record are non-empty. *)
Lemma Log_failed_series_append_counterexample :
  let run := walWrapper_Log Sim.wrapper (Some (Sim.rec 1 1)) (Sim.world Sim.full_disk) in
  elems (ingester.Series (Sim.rec 1 1)) ≠ []
  ∧ elems (ingester.RefEntries (Sim.rec 1 1)) ≠ []
  ∧ run.1 = Return (Some (errorString "write: no space left on device"))
  ∧ length (appends (trace run.2)) = 1.
Proof. repeat split; discriminate. Qed.

(** Spec scenario: the directory holds 0, 3 and 7 and segment 5 is asked
    for: "segment not found", and the world has only gained the listing
    call. *)
Lemma DeleteSegment_not_found_witness :
  os_ReadDir (wl_Dir (wal Sim.wrapper)) (ext σ0)
  = (Sim.listing, None)
  ∧ walWrapper_DeleteSegment Sim.wrapper 5 σ0
    = (Return (Some (errorString "segment not found")),
       mkWorld Sim.disk [CallReadDir "/tmp/wal/agent/t1"] 1 ∅ newRecordPool).
Proof.
  assert (Hread : os_ReadDir (wl_Dir (wal Sim.wrapper)) (ext σ0) = (Sim.listing, None))
    by reflexivity.
  split; [exact Hread|].
  apply (DeleteSegment_not_found Sim.wrapper 5 σ0 Sim.listing Hread). reflexivity.
Defined.

(** A file named "-5" parses, for [strconv.Atoi], to the number -5: asked
    for segment -5, which no non-negative number equals, [DeleteSegment]
    does not answer "segment not found" but removes that file. *)
Lemma DeleteSegment_negative_number_counterexample :
  let run := walWrapper_DeleteSegment Sim.wrapper (-5) (Sim.world Sim.signed_disk) in
  (-5 < 0)%Z
  ∧ Sim.entries Sim.signed_disk = ["-5"; "0"; "3"]
  ∧ run.1 = Return None
  ∧ Sim.entries (ext run.2) = ["0"; "3"]
  ∧ trace run.2 = [CallReadDir "/tmp/wal/agent/t1"; CallRemove "/tmp/wal/agent/t1/-5"].
Proof. repeat split. Qed.

(** Spec scenario: the directory holds 0, 3 and 7 and segment 3 is deleted:
    the file 3 is removed, 0 and 7 remain. *)
Lemma DeleteSegment_removes_the_match_witness :
  os_ReadDir (wl_Dir (wal Sim.wrapper)) (ext σ0)
  = (Sim.listing, None)
  ∧ list_find (parses_to 3) Sim.listing
    = Some (1, {| Name := "3"; IsDir := false |})
  ∧ ∃ σ',
      walWrapper_DeleteSegment Sim.wrapper 3 σ0 = (Return None, σ')
      ∧ trace σ' = [CallReadDir "/tmp/wal/agent/t1"; CallRemove "/tmp/wal/agent/t1/3"]
      ∧ Sim.entries (ext σ') = ["0"; "7"].
Proof.
  assert (Hread : os_ReadDir (wl_Dir (wal Sim.wrapper)) (ext σ0) = (Sim.listing, None))
    by reflexivity.
  assert (Hfind : list_find (parses_to 3) Sim.listing
                  = Some (1, {| Name := "3"; IsDir := false |}))
    by reflexivity.
  split; [exact Hread|]. split; [exact Hfind|].
  destruct (DeleteSegment_removes_the_match Sim.wrapper 3 σ0 Sim.listing 1
              {| Name := "3"; IsDir := false |} Hread Hfind)
    as (σ' & Hrun & Htrace & Hext & _).
  exists σ'. split; [exact Hrun|]. split; [exact Htrace|].
  rewrite Hext. reflexivity.
Defined.

(** Spec scenario: root /tmp/wal, client agent, tenant t1. *)
Lemma newWAL_selects_variant_witness :
  NewSize_keeps_dir (C := Sim.collaborators)
  ∧ (newWAL Sim.logger Sim.registerer Sim.config "agent" "t1" σ0).1
    = Return (ofWalWrapper (mk_walWrapper "/tmp/wal/agent/t1" Sim.logger), None)
  ∧ Dir (mk_walWrapper "/tmp/wal/agent/t1" Sim.logger)
        (newWAL Sim.logger Sim.registerer Sim.config "agent" "t1" σ0).2
    = (Return "/tmp/wal/agent/t1",
       (newWAL Sim.logger Sim.registerer Sim.config "agent" "t1" σ0).2).
Proof.
  assert (Hdir : NewSize_keeps_dir (C := Sim.collaborators)).
  { intros l g d s c x h x' H. injection H as H _. symmetry. exact H. }
  split; [exact Hdir|].
  pose proof (newWAL_selects_variant Sim.logger Sim.registerer Sim.config
                "agent" "t1" σ0 Hdir) as H.
  simpl in H. destruct H as (_ & Hrun & _ & Hd). split; assumption.
Defined.

(** A record of one series and one group: the buffer that [Log] borrowed
    (array 1, capacity 1024) is the one in the byte pool when [Log] has
    returned. *)
Lemma Log_puts_the_buffer_back_witness :
  (elems (ingester.Series (Sim.rec 1 1)) ≠ []
   ∨ elems (ingester.RefEntries (Sim.rec 1 1)) ≠ [])
  ∧ ∃ b σ1 res σ',
      GetBytes σ0 = (Return b, σ1)
      ∧ walWrapper_Log Sim.wrapper (Some (Sim.rec 1 1)) σ0 = (Return res, σ')
      ∧ b = mkSlice 1 [] 1024
      ∧ sync.contents (bPool (recordPool σ')) = [mkSlice 1 [] 1024].
Proof.
  assert (Hne : elems (ingester.Series (Sim.rec 1 1)) ≠ []
                ∨ elems (ingester.RefEntries (Sim.rec 1 1)) ≠ [])
    by (left; discriminate).
  split; [exact Hne|].
  destruct (Log_puts_the_buffer_back Sim.wrapper (Sim.rec 1 1) σ0 Hne)
    as (b & σ1 & res & σ' & Hget & Hrun & _ & Hcont & _).
  exists b, σ1, res, σ'.
  split; [exact Hget|]. split; [exact Hrun|].
  vm_compute in Hget. injection Hget as <- <-.
  split; [reflexivity|]. rewrite Hcont. reflexivity.
Defined.

(** A record of 128 series encodes to 1025 bytes, more than the borrowed
    buffer (array 1) can take: the encoder returns a new array (array 2),
    and that one is in the pool when [Log] has returned; the borrowed
    buffer is not. *)
Lemma Log_reallocated_buffer_counterexample :
  let run := walWrapper_Log Sim.wrapper (Some (Sim.rec 128 0)) σ0 in
  (GetBytes σ0).1 = Return (mkSlice 1 [] 1024)
  ∧ run.1 = Return None
  ∧ sync.contents (bPool (recordPool run.2)) = [mkSlice 2 [] 1025].
Proof. vm_compute. repeat split. Qed.

(** A world whose record pool holds one record, which is allocated, and
    whose runtime hands out the newest instance: a buffer of array 1 filled
    with two bytes comes back empty, on array 1 with its capacity, and the
    record that the borrower filled comes back reset. *)
Lemma pool_round_trip_witness :
  let σ := ((a ← GetRecord; PutRecord a) σ0).2 in
  let x := mkSlice 1 [Byte.x01; Byte.x02] 1024 in
  valid_record_pool σ = true
  ∧ Reset_truncates (C := Sim.collaborators)
  ∧ (∃ b σ1 σ2 b' σ3,
        GetBytes σ = (Return b, σ1)
        ∧ PutBytes x σ1 = (Return tt, σ2)
        ∧ GetBytes σ2 = (Return b', σ3)
        ∧ b' = mkSlice 1 [] 1024
        ∧ next σ3 = next σ1)
  ∧ (∃ a r0 σ1 σ1' σ2 a' r' σ3,
        GetRecord σ = (Return a, σ1)
        ∧ store σ1 !! a = Some (Reset r0)
        ∧ store_record a (Sim.rec 1 0) σ1 = (Return tt, σ1')
        ∧ PutRecord a σ1' = (Return tt, σ2)
        ∧ store σ2 !! a = Some (Sim.rec 1 0)
        ∧ GetRecord σ2 = (Return a', σ3)
        ∧ store σ3 !! a' = Some (Sim.Reset r')
        ∧ a' = a ∧ r' = Sim.rec 1 0).
Proof.
  intros σ x.
  assert (Hvalid : valid_record_pool σ = true) by reflexivity.
  assert (Hreset : Reset_truncates (C := Sim.collaborators))
    by (intros r; repeat split).
  split; [exact Hvalid|]. split; [exact Hreset|].
  destruct (pool_round_trip σ x (mkSlice 3 [] 512) (Sim.rec 1 0) Hvalid Hreset)
    as (Hbytes & _ & Hrecord).
  split.
  - destruct Hbytes as (b & σ1 & σ2 & b' & σ3 & H1 & H2 & _ & H3 & _ & H4).
    exists b, σ1, σ2, b', σ3.
    split; [exact H1|]. split; [exact H2|]. split; [exact H3|].
    vm_compute in H1. injection H1 as _ <-. apply H4. reflexivity.
  - destruct Hrecord
      as (a & r0 & σ1 & σ1' & σ2 & a' & r' & σ3
          & H1 & H2 & H3 & H4 & _ & H5 & H6 & H7 & _ & H8 & _).
    exists a, r0, σ1, σ1', σ2, a', r', σ3.
    split; [exact H1|]. split; [exact H2|]. split; [exact H3|]. split; [exact H4|].
    split; [exact H5|]. split; [exact H6|]. split; [exact H7|].
    vm_compute in H1. injection H1 as _ <-.
    destruct H8 as (Ha & Hr & _); [reflexivity|]. split; assumption.
Defined.

(** Two runs.  A borrower fills a record with one series and puts it back:
    the pool holds the record with its series, not cut to zero length.  And
    on a runtime that hands out nothing, a buffer that was put does not
    come back: the next [Get] makes a new array. *)
Lemma pool_round_trip_counterexample :
  let records :=
    (a ← GetRecord; store_record a (Sim.rec 1 0);; PutRecord a;; mret a) σ0 in
  let buffers := (b ← GetBytes; PutBytes b;; b' ← GetBytes; mret (b, b')) deaf_world in
  (records.1 = Return 1
   ∧ sync.contents (rPool (recordPool records.2)) = [1]
   ∧ (len ∘ ingester.Series) <$> (store records.2 !! 1) = Some 1)
  ∧ (buffers.1 = Return (mkSlice 1 [] 1024, mkSlice 2 [] 1024)
     ∧ sync.contents (bPool (recordPool buffers.2)) = [mkSlice 1 [] 1024]
     ∧ next buffers.2 = 3).
Proof. vm_compute. repeat split. Qed.

End runs.

(** * Further properties of the pools, of [DeleteSegment] and of [Log] *)

Section pools.

Context {Ext WL : Type} `{C : Collaborators Ext WL}.

Local Abbreviation World := (World Ext WL).

Implicit Types (σ : World) (r : ingester.WALRecord).

Ltac go_steps :=
  unfold mbind, M_bind, mret, M_ret, panic, deref, zoom, local_get, local_set,
    with_defer, call, call_ro, alloc, level_Warn, set_recordPool, set_store, get_world,
    make in *.

(** *** sync.Pool *)

Lemma contents_Put {A : Type} (x : A) (p : sync.Pool A) :
  sync.contents (sync.Put x p) ≡ₚ x :: sync.contents p.
Proof. reflexivity. Qed.

Lemma contents_Get {A : Type} (p : sync.Pool A) :
  match sync.Get p with
  | (Some x, p') => sync.contents p ≡ₚ x :: sync.contents p'
  | (None, p') => sync.contents p' = sync.contents p
  end.
Proof.
  destruct (Get_cases p) as [_ Hc].
  destruct (sync.Get p) as [[x|] p']; simpl in Hc; [apply Hc|exact Hc].
Qed.

Lemma Get_empty {A : Type} (p : sync.Pool A) :
  sync.contents p = [] →
  (sync.Get p).1 = None ∧ sync.contents (sync.Get p).2 = [].
Proof.
  intros He. destruct (Get_cases p) as [_ Hc].
  destruct (sync.Get p).1 as [x|].
  - destruct Hc as [Hx _]. rewrite He in Hx. inversion Hx.
  - rewrite Hc. split; [reflexivity|exact He].
Qed.

Lemma valid_record_pool_spec σ :
  valid_record_pool σ = true
  ↔ ∀ a, a ∈ sync.contents (rPool (recordPool σ)) → is_Some (store σ !! a).
Proof.
  unfold valid_record_pool. rewrite forallb_forall. split.
  - intros H a Ha. apply list_elem_of_In in Ha. apply H in Ha.
    apply bool_decide_eq_true in Ha. exact Ha.
  - intros H a Ha. apply bool_decide_eq_true. apply H. apply list_elem_of_In. exact Ha.
Qed.

(** *** The three Put methods *)

(** X1: each Put method adds exactly one instance to its own pool and
    drops none.  After [PutRecord] the record pool holds the pointer it was
    given beside what it held; after [PutEntries] and [PutBytes] the pool
    holds the slice, cut to zero length, beside what it held.  The two other
    pools, the record store, the allocator and the collaborators are as
    before. *)
Theorem Put_adds_exactly_one_instance σ (a : nat) (es : slice logproto.Entry)
    (b : slice Byte.byte) :
  (∃ σ', PutRecord a σ = (Return tt, σ')
         ∧ sync.contents (rPool (recordPool σ')) ≡ₚ a :: sync.contents (rPool (recordPool σ))
         ∧ ePool (recordPool σ') = ePool (recordPool σ)
         ∧ bPool (recordPool σ') = bPool (recordPool σ)
         ∧ same_outside_pool σ σ')
  ∧ (∃ σ', PutEntries es σ = (Return tt, σ')
           ∧ sync.contents (ePool (recordPool σ'))
             ≡ₚ reslice0 es :: sync.contents (ePool (recordPool σ))
           ∧ rPool (recordPool σ') = rPool (recordPool σ)
           ∧ bPool (recordPool σ') = bPool (recordPool σ)
           ∧ same_outside_pool σ σ')
  ∧ (∃ σ', PutBytes b σ = (Return tt, σ')
           ∧ sync.contents (bPool (recordPool σ'))
             ≡ₚ reslice0 b :: sync.contents (bPool (recordPool σ))
           ∧ rPool (recordPool σ') = rPool (recordPool σ)
           ∧ ePool (recordPool σ') = ePool (recordPool σ)
           ∧ same_outside_pool σ σ').
Proof.
  rewrite PutRecord_run, PutEntries_run, PutBytes_run.
  split; [|split]; eexists; (split; [reflexivity|]); simpl;
    (split; [apply contents_Put|]); repeat split.
Qed.

(** *** The getters of slices *)

(** X2: [GetBytes] and [GetEntries] always return.  Either they allocate
    a new array, of capacity 1024 bytes or 512 entries and of length zero,
    and leave in the pool what it holds; or they hand out one slice that
    the pool holds, take exactly that one out of it and allocate no array.
    Which of the two happens is up to [sync.Pool], except that on an empty
    pool they always allocate.  They touch neither the two other pools nor
    the record store nor the collaborators. *)
Theorem Get_takes_from_pool_or_allocates σ :
  (∃ b σ',
      GetBytes σ = (Return b, σ')
      ∧ rPool (recordPool σ') = rPool (recordPool σ)
      ∧ ePool (recordPool σ') = ePool (recordPool σ)
      ∧ ext σ' = ext σ ∧ trace σ' = trace σ ∧ store σ' = store σ
      ∧ ((b = mkSlice (next σ) [] 1024
          ∧ next σ' = S (next σ)
          ∧ sync.contents (bPool (recordPool σ')) = sync.contents (bPool (recordPool σ)))
         ∨ (sync.contents (bPool (recordPool σ))
            ≡ₚ b :: sync.contents (bPool (recordPool σ'))
            ∧ next σ' = next σ))
      ∧ (sync.contents (bPool (recordPool σ)) = [] →
         b = mkSlice (next σ) [] 1024 ∧ next σ' = S (next σ)
         ∧ sync.contents (bPool (recordPool σ')) = []))
  ∧ (∃ es σ',
      GetEntries σ = (Return es, σ')
      ∧ rPool (recordPool σ') = rPool (recordPool σ)
      ∧ bPool (recordPool σ') = bPool (recordPool σ)
      ∧ ext σ' = ext σ ∧ trace σ' = trace σ ∧ store σ' = store σ
      ∧ ((es = mkSlice (next σ) [] 512
          ∧ next σ' = S (next σ)
          ∧ sync.contents (ePool (recordPool σ')) = sync.contents (ePool (recordPool σ)))
         ∨ (sync.contents (ePool (recordPool σ))
            ≡ₚ es :: sync.contents (ePool (recordPool σ'))
            ∧ next σ' = next σ))
      ∧ (sync.contents (ePool (recordPool σ)) = [] →
         es = mkSlice (next σ) [] 512 ∧ next σ' = S (next σ)
         ∧ sync.contents (ePool (recordPool σ')) = [])).
Proof.
  split.
  - rewrite GetBytes_run. eexists _, _. split; [reflexivity|]. simpl.
    pose proof (contents_Get (bPool (recordPool σ))) as Hg.
    pose proof (Get_empty (bPool (recordPool σ))) as Hempty.
    destruct (sync.Get (bPool (recordPool σ))) as [[b|] bp]; simpl in *.
    + do 5 (split; [reflexivity|]). split.
      * right. split; [exact Hg|reflexivity].
      * intros He. destruct (Hempty He) as [Hn _]. discriminate Hn.
    + do 5 (split; [reflexivity|]). split.
      * left. split; [reflexivity|]. split; [reflexivity|exact Hg].
      * intros He. split; [reflexivity|]. split; [reflexivity|]. apply Hempty, He.
  - rewrite GetEntries_run. eexists _, _. split; [reflexivity|]. simpl.
    pose proof (contents_Get (ePool (recordPool σ))) as Hg.
    pose proof (Get_empty (ePool (recordPool σ))) as Hempty.
    destruct (sync.Get (ePool (recordPool σ))) as [[b|] bp]; simpl in *.
    + do 5 (split; [reflexivity|]). split.
      * right. split; [exact Hg|reflexivity].
      * intros He. destruct (Hempty He) as [Hn _]. discriminate Hn.
    + do 5 (split; [reflexivity|]). split.
      * left. split; [reflexivity|]. split; [reflexivity|exact Hg].
      * intros He. split; [reflexivity|]. split; [reflexivity|]. apply Hempty, He.
Qed.

(** *** The pooled slices stay at length zero *)

Lemma newRecordPool_truncated : pool_truncated newRecordPool.
Proof. split; constructor. Qed.

Lemma GetRecord_keeps_slice_pools σ :
  ePool (recordPool (GetRecord σ).2) = ePool (recordPool σ)
  ∧ bPool (recordPool (GetRecord σ).2) = bPool (recordPool σ).
Proof.
  unfold GetRecord, new_WALRecord. go_steps. simpl.
  destruct (sync.Get (rPool (recordPool σ))) as [[a|] rp]; simpl.
  - destruct (store σ !! a); simpl; split; reflexivity.
  - rewrite lookup_insert_eq. simpl. split; reflexivity.
Qed.

Lemma truncated_after_GetBytes σ (b : slice Byte.byte) σ' :
  pool_truncated (recordPool σ) →
  GetBytes σ = (Return b, σ') →
  elems b = [] ∧ pool_truncated (recordPool σ').
Proof.
  intros [He Hb]. unfold GetBytes. go_steps. simpl.
  pose proof (contents_Get (bPool (recordPool σ))) as Hg.
  destruct (sync.Get (bPool (recordPool σ))) as [[y|] bp]; simpl; intros [= <- <-].
  - rewrite Hg in Hb. apply Forall_cons in Hb as [Hy Hl].
    split; [exact Hy|]. split; [exact He|exact Hl].
  - split; [reflexivity|]. split; [exact He|]. simpl. rewrite Hg. exact Hb.
Qed.

Lemma truncated_after_GetEntries σ (es : slice logproto.Entry) σ' :
  pool_truncated (recordPool σ) →
  GetEntries σ = (Return es, σ') →
  elems es = [] ∧ pool_truncated (recordPool σ').
Proof.
  intros [He Hb]. unfold GetEntries. go_steps. simpl.
  pose proof (contents_Get (ePool (recordPool σ))) as Hg.
  destruct (sync.Get (ePool (recordPool σ))) as [[y|] ep]; simpl; intros [= <- <-].
  - rewrite Hg in He. apply Forall_cons in He as [Hy Hl].
    split; [exact Hy|]. split; [exact Hl|exact Hb].
  - split; [reflexivity|]. split; [|exact Hb]. simpl. rewrite Hg. exact He.
Qed.

Lemma truncated_after_Put_bytes (p : resettingPool) (b : slice Byte.byte) :
  pool_truncated p →
  pool_truncated (mkResettingPool (rPool p) (ePool p) (sync.Put (reslice0 b) (bPool p))).
Proof.
  intros [He Hb]. split; [exact He|]. simpl.
  constructor; [reflexivity|exact Hb].
Qed.

Lemma truncated_after_Put_entries (p : resettingPool) (es : slice logproto.Entry) :
  pool_truncated p →
  pool_truncated (mkResettingPool (rPool p) (sync.Put (reslice0 es) (ePool p)) (bPool p)).
Proof.
  intros [He Hb]. split; [|exact Hb]. simpl.
  constructor; [reflexivity|exact He].
Qed.

(** X3: that every pooled slice has length zero is an invariant of the
    pool: when it holds, [GetBytes] and [GetEntries] return a slice of
    length zero, and it holds again after each of the six methods of
    [resettingPool]. *)
Theorem pool_stays_truncated σ :
  pool_truncated (recordPool σ) →
  (∀ b σ', GetBytes σ = (Return b, σ') →
           elems b = [] ∧ pool_truncated (recordPool σ'))
  ∧ (∀ es σ', GetEntries σ = (Return es, σ') →
              elems es = [] ∧ pool_truncated (recordPool σ'))
  ∧ (∀ b, pool_truncated (recordPool (PutBytes b σ).2))
  ∧ (∀ es, pool_truncated (recordPool (PutEntries es σ).2))
  ∧ (∀ a, pool_truncated (recordPool (PutRecord a σ).2))
  ∧ pool_truncated (recordPool (GetRecord σ).2).
Proof.
  intros Ht. split; [|split; [|split; [|split; [|split]]]].
  - intros b σ'. apply truncated_after_GetBytes. exact Ht.
  - intros es σ'. apply truncated_after_GetEntries. exact Ht.
  - intros b. rewrite PutBytes_run. apply truncated_after_Put_bytes. exact Ht.
  - intros es. rewrite PutEntries_run. apply truncated_after_Put_entries. exact Ht.
  - intros a. rewrite PutRecord_run. exact Ht.
  - destruct Ht as [He Hb]. destruct (GetRecord_keeps_slice_pools σ) as [He' Hb'].
    split; [rewrite He'; exact He|rewrite Hb'; exact Hb].
Qed.

(** *** The record pool stays valid *)

(** X4: that every pooled pointer refers to an allocated record is an
    invariant of the record pool: when it holds, [GetRecord] returns (it
    does not panic in [Reset]) a pointer to an allocated record, and it
    holds again after [GetRecord], after [PutRecord] of an allocated record
    and after a write to a record. *)
Theorem record_pool_stays_valid σ :
  valid_record_pool σ = true →
  (∃ a σ', GetRecord σ = (Return a, σ')
           ∧ is_Some (store σ' !! a)
           ∧ valid_record_pool σ' = true)
  ∧ (∀ a, is_Some (store σ !! a) → valid_record_pool (PutRecord a σ).2 = true)
  ∧ (∀ a r, valid_record_pool (store_record a r σ).2 = true).
Proof.
  intros Hvalid. pose proof (proj1 (valid_record_pool_spec σ) Hvalid) as Hlook.
  split; [|split].
  - unfold GetRecord, new_WALRecord. go_steps. simpl.
    pose proof (contents_Get (rPool (recordPool σ))) as Hg.
    destruct (sync.Get (rPool (recordPool σ))) as [[a|] rp]; simpl.
    + destruct (Hlook a) as [r0 Hr0]; [rewrite Hg; left|].
      rewrite Hr0. simpl. eexists a, _. split; [reflexivity|]. simpl.
      split; [rewrite lookup_insert_eq; eauto|].
      apply valid_record_pool_spec. simpl. intros a' Ha'.
      apply lookup_insert_is_Some'. right. apply Hlook. rewrite Hg. right. exact Ha'.
    + rewrite lookup_insert_eq. simpl. eexists (next σ), _. split; [reflexivity|]. simpl.
      split; [rewrite lookup_insert_eq; eauto|].
      apply valid_record_pool_spec. simpl. intros a' Ha'.
      apply lookup_insert_is_Some'. right. apply lookup_insert_is_Some'. right.
      apply Hlook. rewrite <- Hg. exact Ha'.
  - intros a Ha. rewrite PutRecord_run. apply valid_record_pool_spec. simpl.
    intros a' Ha'. change (a' ∈ a :: sync.contents (rPool (recordPool σ))) in Ha'.
    apply elem_of_cons in Ha' as [->|Ha']; [exact Ha|apply Hlook; exact Ha'].
  - intros a r. apply valid_record_pool_spec. simpl. intros a' Ha'.
    apply lookup_insert_is_Some'. right. apply Hlook. exact Ha'.
Qed.

End pools.

Section logging.

Context {Ext WL : Type} `{C : Collaborators Ext WL}.

Local Abbreviation World := (World Ext WL).

Implicit Types (w : @walWrapper WL) (σ : World) (r : ingester.WALRecord).

Ltac go_steps :=
  unfold mbind, M_bind, mret, M_ret, panic, deref, zoom, local_get, local_set,
    with_defer, call, call_ro, alloc, level_Warn, set_recordPool, set_store, get_world,
    make in *.

Ltac in_body Hget Hs He :=
  rewrite Hget; unfold walWrapper_Log_body; go_steps; simpl; unfold len;
  rewrite Hs, He; simpl.

(** Closes what remains once a path of [Log] has been run. *)
Ltac path_done Htr Hst Hr He Ht1 :=
  (split; [reflexivity|]); simpl;
  (split; [rewrite ?Htr, <- ?app_assoc; simpl; rewrite ?app_nil_r; reflexivity|]);
  (split; [rewrite ?Hst; reflexivity|]);
  (split; [rewrite ?Hr; reflexivity|]);
  (split; [rewrite ?He; reflexivity|]);
  (split; [simpl; lia|]);
  (split; [solve [reflexivity | discriminate | (intros _; reflexivity)]|]);
  (split; [solve [(intros [? [=]]) | (intros _; simpl; lia)]|]);
  first [exact (λ H, H)
        | (intros Ht; apply truncated_after_Put_bytes; apply Ht1; exact Ht)].

(** What a call of [Log] does to the world, on every path. *)
Lemma Log_effect w (record : option ingester.WALRecord) σ :
  ∃ (res : option error) σ' (payloads : list (list Byte.byte)),
    walWrapper_Log w record σ = (Return res, σ')
    ∧ trace σ' = (trace σ ++ map (CallLog (wal w)) payloads)%list
    ∧ store σ' = store σ
    ∧ rPool (recordPool σ') = rPool (recordPool σ)
    ∧ ePool (recordPool σ') = ePool (recordPool σ)
    ∧ (length payloads ≤ payload_count record)%nat
    ∧ (res = None → length payloads = payload_count record)
    ∧ (is_Some res → (1 ≤ length payloads)%nat)
    ∧ (pool_truncated (recordPool σ) → pool_truncated (recordPool σ')).
Proof.
  destruct record as [r|].
  2:{ exists None, σ, []. path_done I I I I I. }
  destruct (GetBytes_returns σ) as (b & σ1 & Hget & Hext & Htr & Hst & Hr & He' & _).
  assert (Ht1 : pool_truncated (recordPool σ) → pool_truncated (recordPool σ1)).
  { intros Ht. apply (truncated_after_GetBytes σ b σ1 Ht Hget). }
  unfold walWrapper_Log. go_steps. simpl. unfold len.
  destruct (elems (ingester.Series r)) as [|s0 ss] eqn:Hs;
    destruct (elems (ingester.RefEntries r)) as [|e0 es] eqn:He; simpl.
  - exists None, σ, []. path_done I I I I I.
  - in_body Hget Hs He.
    destruct (EncodeEntries r ingester_CurrentEntriesRec (reslice0 b) (next σ1))
      as [ebuf n1]. simpl.
    destruct (wl_Log (wal w) (elems ebuf) (ext σ1)) as [[err|] x]; simpl;
      eexists _, _, [elems ebuf]; path_done Htr Hst Hr He' Ht1.
  - in_body Hget Hs He.
    destruct (EncodeSeries r (reslice0 b) (next σ1)) as [sbuf n1]. simpl.
    destruct (wl_Log (wal w) (elems sbuf) (ext σ1)) as [[err|] x]; simpl;
      eexists _, _, [elems sbuf]; path_done Htr Hst Hr He' Ht1.
  - in_body Hget Hs He.
    destruct (EncodeSeries r (reslice0 b) (next σ1)) as [sbuf n1]. simpl.
    destruct (wl_Log (wal w) (elems sbuf) (ext σ1)) as [[err|] x]; simpl.
    + eexists _, _, [elems sbuf]; path_done Htr Hst Hr He' Ht1.
    + destruct (EncodeEntries r ingester_CurrentEntriesRec (reslice0 sbuf) n1)
        as [ebuf n2]. simpl.
      destruct (wl_Log (wal w) (elems ebuf) x) as [[err|] x']; simpl;
        eexists _, _, [elems sbuf; elems ebuf]; path_done Htr Hst Hr He' Ht1.
Qed.

(** X5: for every record pointer, nil included, and in every world, [Log]
    on the durable variant returns without a panic, and all it asks of the
    collaborators is engine appends on its own handle: at most one per
    non-empty list of the record, no sync, no close, no file-system call
    and no log line.  It returns nil only when it has appended a payload
    for every non-empty list, and an error only after at least one append.
    The record store, the record pool and the entry pool are as before. *)
Theorem Log_only_appends w (record : option ingester.WALRecord) σ :
  ∃ (res : option error) σ' (payloads : list (list Byte.byte)),
    walWrapper_Log w record σ = (Return res, σ')
    ∧ trace σ' = (trace σ ++ map (CallLog (wal w)) payloads)%list
    ∧ store σ' = store σ
    ∧ rPool (recordPool σ') = rPool (recordPool σ)
    ∧ ePool (recordPool σ') = ePool (recordPool σ)
    ∧ (length payloads ≤ payload_count record)%nat
    ∧ (res = None → length payloads = payload_count record)
    ∧ (is_Some res → (1 ≤ length payloads)%nat).
Proof.
  destruct (Log_effect w record σ)
    as (res & σ' & payloads & H1 & H2 & H3 & H4 & H5 & H6 & H7 & H8 & _).
  exists res, σ', payloads. repeat split; assumption.
Qed.

(** X6: steady state.  When the byte pool hands [Log] a zero-length buffer
    that it holds, rather than a new array, and the encodings of the record
    fit in it (the encoders write into the array they are given and make no
    new array), [Log] puts back that same buffer, on the same array and with
    the same capacity: no new backing array is made (the slice header that
    [PutBytes] boxes is no array and is not counted), the byte pool holds
    the same buffers as before, in some order, and the record pool, the
    entry pool and the record store are as they were, whatever the engine
    answers. *)
Theorem Log_reuses_the_pooled_buffer w r σ (y : slice Byte.byte) :
  (sync.Get (bPool (recordPool σ))).1 = Some y →
  elems y = [] →
  (∀ (b : slice Byte.byte) n,
      array b = array y → cap b = cap y → elems b = [] →
      (EncodeSeries r b n).2 = n
      ∧ array (EncodeSeries r b n).1 = array y
      ∧ cap (EncodeSeries r b n).1 = cap y) →
  (∀ (b : slice Byte.byte) n,
      array b = array y → cap b = cap y → elems b = [] →
      (EncodeEntries r ingester_CurrentEntriesRec b n).2 = n
      ∧ array (EncodeEntries r ingester_CurrentEntriesRec b n).1 = array y
      ∧ cap (EncodeEntries r ingester_CurrentEntriesRec b n).1 = cap y) →
  ∃ (res : option error) σ',
    walWrapper_Log w (Some r) σ = (Return res, σ')
    ∧ next σ' = next σ
    ∧ sync.contents (bPool (recordPool σ')) ≡ₚ sync.contents (bPool (recordPool σ))
    ∧ (elems (ingester.Series r) ≠ [] ∨ elems (ingester.RefEntries r) ≠ [] →
       sync.contents (bPool (recordPool σ'))
       = y :: sync.contents (sync.Get (bPool (recordPool σ))).2)
    ∧ rPool (recordPool σ') = rPool (recordPool σ)
    ∧ ePool (recordPool σ') = ePool (recordPool σ)
    ∧ store σ' = store σ.
Proof.
  intros Hp Hy HS HE.
  assert (Hget : GetBytes σ
                 = (Return y,
                    mkWorld (ext σ) (trace σ) (next σ) (store σ)
                      (mkResettingPool (rPool (recordPool σ)) (ePool (recordPool σ))
                         (sync.Get (bPool (recordPool σ))).2))).
  { rewrite GetBytes_run, Hp. reflexivity. }
  assert (Hperm : sync.contents (bPool (recordPool σ))
                  ≡ₚ y :: sync.contents (sync.Get (bPool (recordPool σ))).2).
  { destruct (Get_cases (bPool (recordPool σ))) as [_ Hc]. rewrite Hp in Hc. apply Hc. }
  assert (Hback : mkSlice (array y) ([] : list Byte.byte) (cap y) = y).
  { destruct y as [ya ye yc]. simpl in *. subst ye. reflexivity. }
  unfold walWrapper_Log. go_steps. simpl. unfold len.
  destruct (elems (ingester.Series r)) as [|s0 ss] eqn:Hs;
    destruct (elems (ingester.RefEntries r)) as [|e0 es] eqn:He; simpl.
  - exists None, σ. split; [reflexivity|]. split; [reflexivity|]. split; [reflexivity|].
    split; [intros [H|H]; congruence|]. repeat split.
  - in_body Hget Hs He.
    destruct (HE (reslice0 y) (next σ)) as (Hn & Ha & Hc); try reflexivity.
    destruct (EncodeEntries r ingester_CurrentEntriesRec (reslice0 y) (next σ))
      as [ebuf n1]. simpl in *. subst n1.
    destruct (wl_Log (wal w) (elems ebuf) (ext σ)) as [[err|] x]; simpl;
      eexists _, _; (split; [reflexivity|]); simpl;
      unfold reslice0; simpl; rewrite ?Ha, ?Hc, Hback;
      (split; [reflexivity|]); (split; [symmetry; exact Hperm|]);
      (split; [intros _; reflexivity|]); repeat split.
  - in_body Hget Hs He.
    destruct (HS (reslice0 y) (next σ)) as (Hn & Ha & Hc); try reflexivity.
    destruct (EncodeSeries r (reslice0 y) (next σ)) as [sbuf n1]. simpl in *. subst n1.
    destruct (wl_Log (wal w) (elems sbuf) (ext σ)) as [[err|] x]; simpl;
      eexists _, _; (split; [reflexivity|]); simpl;
      unfold reslice0; simpl; rewrite ?Ha, ?Hc, Hback;
      (split; [reflexivity|]); (split; [symmetry; exact Hperm|]);
      (split; [intros _; reflexivity|]); repeat split.
  - in_body Hget Hs He.
    destruct (HS (reslice0 y) (next σ)) as (Hn & Ha & Hc); try reflexivity.
    destruct (EncodeSeries r (reslice0 y) (next σ)) as [sbuf n1]. simpl in *. subst n1.
    destruct (wl_Log (wal w) (elems sbuf) (ext σ)) as [[err|] x]; simpl.
    + eexists _, _; (split; [reflexivity|]); simpl;
      unfold reslice0; simpl; rewrite ?Ha, ?Hc, Hback;
      (split; [reflexivity|]); (split; [symmetry; exact Hperm|]);
      (split; [intros _; reflexivity|]); repeat split.
    + destruct (HE (reslice0 sbuf) (next σ)) as (Hn' & Ha' & Hc'); try assumption;
        try reflexivity.
      destruct (EncodeEntries r ingester_CurrentEntriesRec (reslice0 sbuf) (next σ))
        as [ebuf n2]. simpl in *. subst n2.
      destruct (wl_Log (wal w) (elems ebuf) x) as [[err|] x']; simpl;
        eexists _, _; (split; [reflexivity|]); simpl;
        unfold reslice0; simpl; rewrite ?Ha', ?Hc', Hback;
        (split; [reflexivity|]); (split; [symmetry; exact Hperm|]);
        (split; [intros _; reflexivity|]); repeat split.
Qed.

End logging.

Section segments.

Context {Ext WL : Type} `{C : Collaborators Ext WL}.

Local Abbreviation World := (World Ext WL).

Implicit Types (w : @walWrapper WL) (σ : World).

Ltac go_steps :=
  unfold mbind, M_bind, mret, M_ret, panic, deref, zoom, local_get, local_set,
    with_defer, call, call_ro, alloc, level_Warn, set_recordPool, set_store, get_world,
    make in *.

(** *** Names that parse *)

Lemma digit_is_no_sign (c : ascii) (d : Z) :
  strconv.digit c = Some d → Ascii.eqb c "-" = false ∧ Ascii.eqb c "+" = false.
Proof.
  intros Hd. split.
  - destruct (Ascii.eqb c "-") eqn:E; [|reflexivity].
    apply Ascii.eqb_eq in E. subst c. discriminate Hd.
  - destruct (Ascii.eqb c "+") eqn:E; [|reflexivity].
    apply Ascii.eqb_eq in E. subst c. discriminate Hd.
Qed.

(** A name made of decimal digits parses to the number they write, as long
    as it is an [int]. *)
Lemma Atoi_unsigned (s : string) (n : Z) :
  s ≠ "" → strconv.digits s 0 = Some n → (n ≤ maxInt)%Z → strconv.Atoi s = Some n.
Proof.
  intros Hne Hd Hmax. destruct s as [|c rest]; [contradiction|].
  assert (Hpos : (0 ≤ n)%Z) by (apply (digits_nonneg _ 0 n) in Hd; [exact Hd|lia]).
  unfold strconv.Atoi.
  assert (Hc : ∃ d, strconv.digit c = Some d).
  { simpl in Hd. destruct (strconv.digit c) as [d|]; [eauto|discriminate]. }
  destruct Hc as [d Hc]. destruct (digit_is_no_sign c d Hc) as [-> ->]. simpl orb. cbv iota.
  rewrite Hd.
  assert (Hin : ((minInt <=? n) && (n <=? maxInt))%Z = true).
  { apply andb_true_iff. split; apply Z.leb_le; [unfold minInt; lia|exact Hmax]. }
  rewrite Hin. reflexivity.
Qed.

Lemma digits_zeros (k : nat) (s : string) :
  strconv.digits (zeros k ++ s) 0 = strconv.digits s 0.
Proof. induction k as [|k IH]; [reflexivity|]. simpl. exact IH. Qed.

Lemma zeros_app_nonempty (k : nat) (s : string) : s ≠ "" → zeros k ++ s ≠ "".
Proof. intros Hs. destruct k; simpl; [exact Hs|discriminate]. Qed.

(** *** What [DeleteSegment] does, on every path *)

Lemma DeleteSegment_effect w (segmentNum : Z) σ :
  let dir := wl_Dir (wal w) in
  let listing := os_ReadDir dir (ext σ) in
  ∃ (res : option error) σ',
    walWrapper_DeleteSegment w segmentNum σ = (Return res, σ')
    ∧ next σ' = next σ ∧ store σ' = store σ ∧ recordPool σ' = recordPool σ
    ∧ ((trace σ' = (trace σ ++ [CallReadDir dir])%list
        ∧ ext σ' = ext σ
        ∧ is_Some res
        ∧ (listing.2 = None → list_find (parses_to segmentNum) listing.1 = None))
       ∨ (∃ i f,
            listing.2 = None
            ∧ list_find (parses_to segmentNum) listing.1 = Some (i, f)
            ∧ trace σ'
              = (trace σ ++ [CallReadDir dir;
                             CallRemove (filepath_Join [dir; Name f])])%list
            ∧ ext σ' = (os_Remove (filepath_Join [dir; Name f]) (ext σ)).2
            ∧ res = deleting_error (os_Remove (filepath_Join [dir; Name f]) (ext σ)).1)).
Proof.
  intros dir listing. subst listing dir.
  unfold walWrapper_DeleteSegment, walWrapper_Dir. go_steps. simpl.
  destruct (os_ReadDir (wl_Dir (wal w)) (ext σ)) as [files [cause|]]; simpl.
  - eexists _, _. split; [reflexivity|]. simpl. repeat split.
    left. repeat split; [eauto|discriminate].
  - rewrite DeleteSegment_loop_find.
    destruct (list_find (parses_to segmentNum) files) as [[i f]|] eqn:Hfind; simpl.
    + assert (Hname : String.eqb (Name f) "" = false).
      { apply String.eqb_neq. apply (parses_to_nonempty segmentNum).
        apply list_find_Some in Hfind. tauto. }
      rewrite Hname. simpl.
      destruct (os_Remove (filepath_Join [wl_Dir (wal w); Name f]) (ext σ))
        as [[cause|] x] eqn:Hrm; simpl;
        eexists _, _; (split; [reflexivity|]); simpl; repeat split;
        right; exists i, f; rewrite Hrm, <- app_assoc; repeat split; exact Hfind.
    + eexists _, _. split; [reflexivity|]. simpl. repeat split.
      left. repeat split; eauto.
Qed.

(** X7: for every segment number and in every world, [DeleteSegment]
    returns without a panic and either only lists the directory and returns
    an error, or lists it and asks for the removal of one listed entry whose
    name parses to that number, returning nil exactly when that removal
    succeeds.  It never removes an entry whose name does not parse to the
    number, never more than one, and leaves pools, store and allocator
    alone. *)
Theorem DeleteSegment_removes_nothing_else w (segmentNum : Z) σ :
  let dir := wl_Dir (wal w) in
  let listing := os_ReadDir dir (ext σ) in
  ∃ (res : option error) σ',
    walWrapper_DeleteSegment w segmentNum σ = (Return res, σ')
    ∧ next σ' = next σ ∧ store σ' = store σ ∧ recordPool σ' = recordPool σ
    ∧ ((trace σ' = (trace σ ++ [CallReadDir dir])%list
        ∧ ext σ' = ext σ
        ∧ is_Some res)
       ∨ (∃ f,
            f ∈ listing.1
            ∧ strconv.Atoi (Name f) = Some segmentNum
            ∧ trace σ'
              = (trace σ ++ [CallReadDir dir;
                             CallRemove (filepath_Join [dir; Name f])])%list
            ∧ ext σ' = (os_Remove (filepath_Join [dir; Name f]) (ext σ)).2
            ∧ (res = None ↔ (os_Remove (filepath_Join [dir; Name f]) (ext σ)).1 = None))).
Proof.
  intros dir listing.
  destruct (DeleteSegment_effect w segmentNum σ)
    as (res & σ' & Hrun & Hn & Hs & Hp & Hcase).
  exists res, σ'. repeat split; try assumption.
  destruct Hcase as [(Ht & He & Hr & _)|(i & f & _ & Hfind & Ht & He & Hr)].
  - left. repeat split; assumption.
  - right. exists f. apply list_find_Some in Hfind as (Hi & Hf & _).
    split; [eapply list_elem_of_lookup_2; exact Hi|].
    split; [exact Hf|]. split; [exact Ht|]. split; [exact He|].
    rewrite Hr. destruct (os_Remove _ (ext σ)).1; simpl; split; congruence.
Qed.

(** X8: when [os.ReadDir] returns an error, [DeleteSegment] returns the
    error "error reading wal dir", which does not wrap the cause, and
    removes nothing, whatever the entries returned with the error. *)
Theorem DeleteSegment_listing_failure w (segmentNum : Z) σ (files : list DirEntry)
    (cause : error) :
  os_ReadDir (wl_Dir (wal w)) (ext σ) = (files, Some cause) →
  ∃ err,
    walWrapper_DeleteSegment w segmentNum σ
    = (Return (Some err),
       mkWorld (ext σ) (trace σ ++ [CallReadDir (wl_Dir (wal w))])
               (next σ) (store σ) (recordPool σ))
    ∧ Error err = "error reading wal dir"
    ∧ Unwrap err = None.
Proof.
  intros Hread. unfold walWrapper_DeleteSegment, walWrapper_Dir. go_steps. simpl.
  rewrite Hread. eexists. repeat split.
Qed.

(** The two runs of [DeleteSegment] after a listing that succeeded. *)
Lemma DeleteSegment_run_found w (segmentNum : Z) σ (files : list DirEntry) (i : nat)
    (f : DirEntry) :
  os_ReadDir (wl_Dir (wal w)) (ext σ) = (files, None) →
  list_find (parses_to segmentNum) files = Some (i, f) →
  let name := filepath_Join [wl_Dir (wal w); Name f] in
  walWrapper_DeleteSegment w segmentNum σ
  = (Return (deleting_error (os_Remove name (ext σ)).1),
     mkWorld (os_Remove name (ext σ)).2
       (trace σ ++ [CallReadDir (wl_Dir (wal w)); CallRemove name])
       (next σ) (store σ) (recordPool σ)).
Proof.
  intros Hread Hfind name. subst name.
  assert (Hname : String.eqb (Name f) "" = false).
  { apply String.eqb_neq. apply (parses_to_nonempty segmentNum).
    apply list_find_Some in Hfind. tauto. }
  unfold walWrapper_DeleteSegment, walWrapper_Dir. go_steps. simpl.
  rewrite Hread, DeleteSegment_loop_find, Hfind. simpl. rewrite Hname. simpl.
  destruct (os_Remove (filepath_Join [wl_Dir (wal w); Name f]) (ext σ)) as [[cause|] x];
    simpl; rewrite <- app_assoc; reflexivity.
Qed.

Lemma DeleteSegment_run_not_found w (segmentNum : Z) σ (files : list DirEntry) :
  os_ReadDir (wl_Dir (wal w)) (ext σ) = (files, None) →
  list_find (parses_to segmentNum) files = None →
  walWrapper_DeleteSegment w segmentNum σ
  = (Return (Some (errorString "segment not found")),
     mkWorld (ext σ) (trace σ ++ [CallReadDir (wl_Dir (wal w))])
       (next σ) (store σ) (recordPool σ)).
Proof.
  intros Hread Hnone. unfold walWrapper_DeleteSegment, walWrapper_Dir. go_steps. simpl.
  rewrite Hread, DeleteSegment_loop_find, Hnone. reflexivity.
Qed.

(** X9: [DeleteSegment] is not idempotent.  When a first call has removed
    the matching file, the directory lists the same entries without it and
    no other entry parses to the number, the same call again fails with
    "segment not found" and removes nothing. *)
Theorem DeleteSegment_again_is_not_found w (segmentNum : Z) σ (files : list DirEntry)
    (i : nat) (f : DirEntry) (x' : Ext) :
  let dir := wl_Dir (wal w) in
  let name := filepath_Join [dir; Name f] in
  os_ReadDir dir (ext σ) = (files, None) →
  list_find (parses_to segmentNum) files = Some (i, f) →
  os_Remove name (ext σ) = (None, x') →
  os_ReadDir dir x' = (filter (λ g, Name g ≠ Name f) files, None) →
  (∀ g, g ∈ files → parses_to segmentNum g → Name g = Name f) →
  ∃ σ2,
    (first ← walWrapper_DeleteSegment w segmentNum;
     second ← walWrapper_DeleteSegment w segmentNum;
     mret (first, second)) σ
    = (Return (None, Some (errorString "segment not found")), σ2)
    ∧ ext σ2 = x'
    ∧ trace σ2 = (trace σ ++ [CallReadDir dir; CallRemove name; CallReadDir dir])%list.
Proof.
  intros dir name Hread Hfind Hrm Hread2 Huniq. subst dir name.
  assert (Hnone : list_find (parses_to segmentNum) (filter (λ g, Name g ≠ Name f) files)
                  = None).
  { apply list_find_None. apply Forall_forall. intros g Hg Hparse.
    apply list_elem_of_filter in Hg as [Hne Hin]. apply Hne. apply Huniq; assumption. }
  unfold mbind at 1, M_bind.
  rewrite (DeleteSegment_run_found w segmentNum σ files i f Hread Hfind).
  rewrite Hrm. simpl.
  unfold mbind, M_bind.
  match goal with
  | |- context [walWrapper_DeleteSegment w segmentNum ?s] =>
      rewrite (DeleteSegment_run_not_found w segmentNum s _ Hread2 Hnone)
  end. simpl.
  eexists. split; [reflexivity|]. simpl. rewrite <- app_assoc. split; reflexivity.
Qed.

(** X10: matching is by number, not by text.  An entry whose name is the
    decimal digits of the segment number behind any number of zeros (the
    engine names segment files with eight digits) parses to the number; with
    such an entry in the listing [DeleteSegment] never answers "segment not
    found", and removes the first entry that parses to the number. *)
Theorem DeleteSegment_matches_zero_padded_names w (segmentNum : Z) σ
    (files : list DirEntry) (f : DirEntry) (k : nat) (digits : string) :
  os_ReadDir (wl_Dir (wal w)) (ext σ) = (files, None) →
  f ∈ files →
  Name f = zeros k ++ digits →
  digits ≠ "" →
  strconv.digits digits 0 = Some segmentNum →
  (segmentNum ≤ maxInt)%Z →
  strconv.Atoi (Name f) = Some segmentNum
  ∧ ∃ i g (res : option error) σ',
      list_find (parses_to segmentNum) files = Some (i, g)
      ∧ walWrapper_DeleteSegment w segmentNum σ = (Return res, σ')
      ∧ res ≠ Some (errorString "segment not found")
      ∧ trace σ'
        = (trace σ ++ [CallReadDir (wl_Dir (wal w));
                       CallRemove (filepath_Join [wl_Dir (wal w); Name g])])%list.
Proof.
  intros Hread Hin Hname Hne Hd Hmax.
  assert (Hparse : strconv.Atoi (Name f) = Some segmentNum).
  { rewrite Hname. apply Atoi_unsigned; [apply zeros_app_nonempty; exact Hne| |exact Hmax].
    rewrite digits_zeros. exact Hd. }
  split; [exact Hparse|].
  destruct (list_find (parses_to segmentNum) files) as [[i g]|] eqn:Hfind.
  - exists i, g. eexists _, _. split; [reflexivity|].
    rewrite (DeleteSegment_run_found w segmentNum σ files i g Hread Hfind).
    split; [reflexivity|]. split; [|reflexivity].
    destruct (os_Remove _ (ext σ)).1; simpl; discriminate.
  - apply list_find_None in Hfind. rewrite Forall_forall in Hfind.
    exfalso. apply (Hfind f Hin). exact Hparse.
Qed.

End segments.

Section sequences.

Context {Ext WL : Type} `{C : Collaborators Ext WL}.

Local Abbreviation World := (World Ext WL).

Implicit Types (w : @walWrapper WL) (σ : World).

Ltac go_steps :=
  unfold mbind, M_bind, mret, M_ret, panic, deref, zoom, local_get, local_set,
    with_defer, call, call_ro, alloc, level_Warn, set_recordPool, set_store, get_world,
    make in *.

(** Closes a conjunction of facts that are at hand. *)
Ltac close_frame :=
  repeat (split; [first [assumption | reflexivity]|]);
  first [assumption | reflexivity | exact (λ H, H)].

(** What one method call on a wrapper does to the world. *)
Lemma wrapper_op_effect w (op : Op) σ :
  ∃ (a : Answer) σ' (new : list (Event WL)),
    do_op w op σ = (Return a, σ')
    ∧ trace σ' = (trace σ ++ new)%list
    ∧ Forall (confined w) new
    ∧ store σ' = store σ
    ∧ rPool (recordPool σ') = rPool (recordPool σ)
    ∧ ePool (recordPool σ') = ePool (recordPool σ)
    ∧ (pool_truncated (recordPool σ) → pool_truncated (recordPool σ')).
Proof.
  destruct op as [record| | | |segmentNum|]; simpl.
  - destruct (Log_effect w record σ)
      as (res & σ' & payloads & Hrun & Ht & Hs & Hr & He & _ & _ & _ & Htr).
    unfold mbind, M_bind. rewrite Hrun. simpl.
    eexists _, _, _. split; [reflexivity|]. split; [exact Ht|].
    split; [|close_frame].
    apply Forall_forall. intros e He'. apply list_elem_of_fmap in He' as (p & -> & _).
    reflexivity.
  - unfold walWrapper_Delete. go_steps. simpl.
    destruct (wl_Close (wal w) (ext σ)) as [[e|] x1]; simpl;
      destruct (os_RemoveAll (wl_Dir (wal w)) x1) as [rerr x2]; simpl;
      eexists _, _, _; (split; [reflexivity|]); simpl; rewrite <- ?app_assoc;
      (split; [reflexivity|]); (split; [|close_frame]);
      repeat constructor.
  - unfold walWrapper_Sync. go_steps. simpl.
    destruct (wl_Sync (wal w) (ext σ)) as [e x]; simpl.
    eexists _, _, _. split; [reflexivity|]. simpl. split; [reflexivity|].
    split; [|close_frame]. repeat constructor.
  - exists (ADir (wl_Dir (wal w))), σ, []. split; [reflexivity|].
    rewrite app_nil_r. split; [reflexivity|]. split; [constructor|close_frame].
  - destruct (DeleteSegment_effect w segmentNum σ)
      as (res & σ' & Hrun & Hn & Hs & Hp & Hcase).
    unfold mbind, M_bind. rewrite Hrun. simpl.
    destruct Hcase as [(Ht & _)|(i & f & _ & Hfind & Ht & _)].
    + eexists _, _, _. split; [reflexivity|]. split; [exact Ht|].
      split; [|rewrite Hp; close_frame]. repeat constructor.
    + eexists _, _, _. split; [reflexivity|]. split; [exact Ht|].
      split; [|rewrite Hp; close_frame].
      apply list_find_Some in Hfind as (_ & Hf & _).
      constructor; [reflexivity|]. constructor; [|constructor].
      exists (Name f). split; [reflexivity|]. rewrite Hf. eauto.
  - unfold walWrapper_NextSegment. go_steps. simpl.
    destruct (wl_NextSegmentSync (wal w) (ext σ)) as [[n e] x]; simpl.
    eexists _, _, _. split; [reflexivity|]. simpl. split; [reflexivity|].
    split; [|close_frame]. repeat constructor.
Qed.

(** The same for calls in a row. *)
Lemma wrapper_ops_effect w (ops : list Op) :
  ∀ σ, ∃ (answers : list Answer) σ' (new : list (Event WL)),
    do_ops (do_op w) ops σ = (Return answers, σ')
    ∧ length answers = length ops
    ∧ trace σ' = (trace σ ++ new)%list
    ∧ Forall (confined w) new
    ∧ store σ' = store σ
    ∧ rPool (recordPool σ') = rPool (recordPool σ)
    ∧ ePool (recordPool σ') = ePool (recordPool σ)
    ∧ (pool_truncated (recordPool σ) → pool_truncated (recordPool σ')).
Proof.
  induction ops as [|op ops IH]; intros σ.
  - exists [], σ, []. split; [reflexivity|]. split; [reflexivity|].
    rewrite app_nil_r. split; [reflexivity|]. split; [constructor|close_frame].
  - destruct (wrapper_op_effect w op σ)
      as (a & σ1 & new1 & Hrun1 & Ht1 & Hc1 & Hs1 & Hr1 & He1 & Hp1).
    destruct (IH σ1) as (answers & σ' & new & Hrun & Hlen & Ht & Hc & Hs & Hr & He & Hp).
    exists (a :: answers), σ', (new1 ++ new)%list.
    split.
    { simpl. unfold mbind, M_bind. rewrite Hrun1. simpl. rewrite Hrun. reflexivity. }
    split; [simpl; congruence|].
    split; [rewrite Ht, Ht1, app_assoc; reflexivity|].
    split; [apply Forall_app; split; assumption|].
    split; [congruence|]. split; [congruence|]. split; [congruence|].
    intros H. apply Hp, Hp1, H.
Qed.

(** X11: whatever methods of the interface are called on a wrapper, in
    whatever order, no call panics and every call made to the collaborators
    is an engine call on the wrapper's own handle, a listing or removal of
    the engine's directory, the removal of an entry of that directory whose
    name parses as a number, or a log line on the wrapper's logger; the
    wrapper never opens another engine. *)
Theorem wrapper_programs_are_confined w (ops : list Op) σ :
  ∃ (answers : list Answer) σ' (new : list (Event WL)),
    do_ops (do_op w) ops σ = (Return answers, σ')
    ∧ length answers = length ops
    ∧ trace σ' = (trace σ ++ new)%list
    ∧ Forall (confined w) new.
Proof.
  destruct (wrapper_ops_effect w ops σ)
    as (answers & σ' & new & H1 & H2 & H3 & H4 & _).
  exists answers, σ', new. repeat split; assumption.
Qed.

(** X12: whatever methods of the interface are called on a wrapper, in
    whatever order, the pooled slices stay at length zero, and the record
    store, the record pool and the entry pool are not touched. *)
Theorem wrapper_programs_keep_the_pools w (ops : list Op) σ :
  pool_truncated (recordPool σ) →
  ∃ (answers : list Answer) σ',
    do_ops (do_op w) ops σ = (Return answers, σ')
    ∧ pool_truncated (recordPool σ')
    ∧ store σ' = store σ
    ∧ rPool (recordPool σ') = rPool (recordPool σ)
    ∧ ePool (recordPool σ') = ePool (recordPool σ).
Proof.
  intros Ht.
  destruct (wrapper_ops_effect w ops σ)
    as (answers & σ' & new & H1 & _ & _ & _ & H5 & H6 & H7 & H8).
  exists answers, σ'. repeat split; try assumption; apply H8; assumption.
Qed.

(** X13: a WAL made by [newWAL] with [Enabled = false] ignores every
    program: any sequence of method calls on the returned interface value
    returns the no-effect result for each call and leaves the world exactly
    as it was. *)
Theorem disabled_WAL_ignores_every_program (l : Logger) (g : Registerer)
    (cfg : WALConfig) (clientName tenantID : string) (ops : list Op) σ :
  cfg_Enabled cfg = false →
  (made ← newWAL l g cfg clientName tenantID;
   do_ops (WALValue_do made.1) ops) σ
  = (Return (map noop_answer ops), σ).
Proof.
  intros Hoff. unfold newWAL. rewrite Hoff. simpl.
  unfold mbind at 1, M_bind, mret, M_ret. simpl.
  revert σ. induction ops as [|op ops IH]; intros σ; [reflexivity|].
  simpl. unfold mbind at 1, M_bind.
  assert (Hop : do_op NoopWAL op σ = (Return (noop_answer op), σ))
    by (destruct op; reflexivity).
  rewrite Hop. unfold mbind, M_bind in *. rewrite IH. reflexivity.
Qed.

End sequences.

Section lifecycle.

Context {Ext WL : Type} `{C : Collaborators Ext WL}.

Local Abbreviation World := (World Ext WL).

(** X14: an enabled WAL stays in its directory.  When [newWAL] with
    [Enabled = true] has opened the engine, whatever methods are then called
    on the returned interface value, no call panics, and after the one
    construction call every call to the collaborators is an engine call on
    the new handle, a listing or removal of
    [path.Join(cfg.Dir, clientName, tenantID)], the removal of an entry of
    that directory whose name parses as a number, or a warning on the logger
    given to [newWAL]. *)
Theorem enabled_WAL_stays_in_its_directory (l : Logger) (g : Registerer)
    (cfg : WALConfig) (clientName tenantID : string) (ops : list Op) (σ : World)
    (h : WL) (x : Ext) :
  let dir := path_Join [cfg_Dir cfg; clientName; tenantID] in
  NewSize_keeps_dir →
  cfg_Enabled cfg = true →
  wlog_NewSize l g dir wlog_DefaultSegmentSize false (ext σ) = (inl h, x) →
  ∃ (answers : list Answer) σ' (new : list (Event WL)),
    (made ← newWAL l g cfg clientName tenantID;
     do_ops (WALValue_do made.1) ops) σ
    = (Return answers, σ')
    ∧ length answers = length ops
    ∧ trace σ'
      = (trace σ ++ CallNewSize l g dir wlog_DefaultSegmentSize false :: new)%list
    ∧ Forall (confined (mk_walWrapper h l)) new
    ∧ wl_Dir (wal (mk_walWrapper h l)) = dir
    ∧ log (mk_walWrapper h l) = l.
Proof.
  intros dir Hdir Hon Hnew.
  unfold newWAL. rewrite Hon. simpl. fold dir.
  unfold mbind at 1, M_bind. unfold mbind at 1, M_bind, call. rewrite Hnew. simpl.
  unfold mret, M_ret. simpl.
  match goal with
  | |- context [do_ops _ ops ?s] =>
      destruct (wrapper_ops_effect (mk_walWrapper h l) ops s)
        as (answers & σ' & new & Hrun & Hlen & Ht & Hc & _)
  end.
  exists answers, σ', new.
  split; [exact Hrun|]. split; [exact Hlen|].
  split; [rewrite Ht; simpl; rewrite <- app_assoc; reflexivity|].
  split; [exact Hc|]. split; [|reflexivity].
  simpl. apply (Hdir _ _ _ _ _ _ _ _ Hnew).
Qed.

End lifecycle.

(** * The further statements on the simulated worlds *)

Section more_runs.

Local Open Scope nat_scope.

Local Abbreviation σ0 := (Sim.world Sim.disk).

(** On the new pool, which holds nothing, [GetBytes] makes array 1 with
    room for 1024 bytes and [GetEntries] array 1 with room for 512
    entries. *)
Lemma Get_takes_from_pool_or_allocates_witness :
  sync.contents (bPool (recordPool σ0)) = []
  ∧ sync.contents (ePool (recordPool σ0)) = []
  ∧ (GetBytes σ0).1 = Return (mkSlice 1 [] 1024)
  ∧ (GetEntries σ0).1 = Return (mkSlice 1 [] 512)
  ∧ next (GetBytes σ0).2 = 2.
Proof.
  destruct (Get_takes_from_pool_or_allocates σ0)
    as ((b & σ1 & Hb & _ & _ & _ & _ & _ & _ & Hbe) & (es & σ2 & He & _ & _ & _ & _ & _ & _ & Hee)).
  split; [reflexivity|]. split; [reflexivity|].
  destruct (Hbe eq_refl) as (-> & Hn & _). destruct (Hee eq_refl) as (-> & _ & _).
  rewrite Hb, He. simpl. split; [reflexivity|]. split; [reflexivity|exact Hn].
Defined.

(** A new pool is truncated, and stays so when a filled buffer is put. *)
Lemma pool_stays_truncated_witness :
  pool_truncated (recordPool σ0)
  ∧ pool_truncated
      (recordPool (PutBytes (mkSlice 1 [Byte.x01; Byte.x02] 1024) σ0).2).
Proof.
  assert (Ht : pool_truncated (recordPool σ0)) by (split; constructor).
  split; [exact Ht|].
  destruct (pool_stays_truncated σ0 Ht) as (_ & _ & Hput & _).
  apply Hput.
Defined.

(** A record is taken from the new pool, filled and put back: the pool
    then holds its pointer, address 1, and is valid.  [GetRecord] hands out
    that pooled pointer, which refers to an allocated record; the pool is
    valid after it, after the record is put once more and after a write. *)
Lemma record_pool_stays_valid_witness :
  let σ := ((a ← GetRecord; store_record a (Sim.rec 1 1);; PutRecord a) σ0).2 in
  valid_record_pool σ = true
  ∧ sync.contents (rPool (recordPool σ)) = [1]
  ∧ store σ !! 1 = Some (Sim.rec 1 1)
  ∧ (GetRecord σ).1 = Return 1
  ∧ (∃ a σ', GetRecord σ = (Return a, σ')
             ∧ is_Some (store σ' !! a)
             ∧ valid_record_pool σ' = true)
  ∧ valid_record_pool (PutRecord 1 σ).2 = true
  ∧ valid_record_pool (store_record 1 (Sim.rec 0 1) σ).2 = true.
Proof.
  intros σ.
  assert (Hv : valid_record_pool σ = true) by reflexivity.
  assert (Hs : store σ !! 1 = Some (Sim.rec 1 1)) by reflexivity.
  split; [exact Hv|]. split; [reflexivity|]. split; [exact Hs|]. split; [reflexivity|].
  destruct (record_pool_stays_valid σ Hv) as (Hget & Hput & Hwrite).
  split; [exact Hget|]. split; [|apply Hwrite].
  apply Hput. rewrite Hs. eexists. reflexivity.
Defined.

(** A second [Log] finds the buffer of the first in the pool, and leaves
    it there. *)
Lemma Log_reuses_the_pooled_buffer_witness :
  let σ := (walWrapper_Log Sim.wrapper (Some (Sim.rec 1 1)) σ0).2 in
  (sync.Get (bPool (recordPool σ))).1 = Some (mkSlice 1 [] 1024)
  ∧ sync.contents (bPool (recordPool σ)) = [mkSlice 1 [] 1024]
  ∧ ∃ res σ',
      walWrapper_Log Sim.wrapper (Some (Sim.rec 1 1)) σ = (Return res, σ')
      ∧ next σ' = next σ
      ∧ sync.contents (bPool (recordPool σ')) = [mkSlice 1 [] 1024]
      ∧ store σ' = store σ.
Proof.
  intros σ.
  assert (Hp : (sync.Get (bPool (recordPool σ))).1 = Some (mkSlice 1 [] 1024))
    by reflexivity.
  split; [exact Hp|]. split; [reflexivity|].
  destruct (Log_reuses_the_pooled_buffer Sim.wrapper (Sim.rec 1 1) σ (mkSlice 1 [] 1024) Hp)
    as (res & σ' & Hrun & Hnext & _ & Hc & _ & _ & Hst).
  - reflexivity.
  - intros [a e c] n Ha Hc He. simpl in *. subst. repeat split.
  - intros [a e c] n Ha Hc He. simpl in *. subst. repeat split.
  - exists res, σ'. split; [exact Hrun|]. split; [exact Hnext|]. split; [|exact Hst].
    rewrite Hc; [reflexivity|]. left. discriminate.
Defined.

(** The listing breaks off with an error after it has read 0, 3 and 7:
    segment 3 is not removed. *)
Lemma DeleteSegment_listing_failure_witness :
  os_ReadDir (Collaborators := Unreadable.collaborators) (wl_Dir (wal Sim.wrapper)) (ext σ0)
  = (Sim.listing,
     Some (errorString "readdirent /tmp/wal/agent/t1: input/output error"))
  ∧ ∃ err,
      walWrapper_DeleteSegment (C := Unreadable.collaborators) Sim.wrapper 3 σ0
      = (Return (Some err),
         mkWorld Sim.disk [CallReadDir "/tmp/wal/agent/t1"] 1 ∅ newRecordPool)
      ∧ Error err = "error reading wal dir"
      ∧ Unwrap err = None.
Proof.
  assert (Hread : os_ReadDir (Collaborators := Unreadable.collaborators)
                    (wl_Dir (wal Sim.wrapper)) (ext σ0)
                  = (Sim.listing,
                     Some (errorString "readdirent /tmp/wal/agent/t1: input/output error")))
    by reflexivity.
  split; [exact Hread|].
  apply (DeleteSegment_listing_failure (C := Unreadable.collaborators)
           Sim.wrapper 3 σ0 _ _ Hread).
Defined.

(** Segment 3 deleted twice on the directory that holds 0, 3 and 7. *)
Lemma DeleteSegment_again_is_not_found_witness :
  ∃ σ2,
    (first ← walWrapper_DeleteSegment Sim.wrapper 3;
     second ← walWrapper_DeleteSegment Sim.wrapper 3;
     mret (first, second)) σ0
    = (Return (None, Some (errorString "segment not found")), σ2)
    ∧ Sim.entries (ext σ2) = ["0"; "7"].
Proof.
  assert (Hread : os_ReadDir (wl_Dir (wal Sim.wrapper)) (ext σ0) = (Sim.listing, None))
    by reflexivity.
  assert (Hfind : list_find (parses_to 3) Sim.listing
                  = Some (1, {| Name := "3"; IsDir := false |}))
    by reflexivity.
  assert (Hrm : os_Remove (filepath_Join [wl_Dir (wal Sim.wrapper); "3"]) (ext σ0)
                = (None, Sim.mkExt "/tmp/wal/agent/t1" ["0"; "7"] [] false false false false))
    by reflexivity.
  assert (Hread2 : os_ReadDir (wl_Dir (wal Sim.wrapper))
                     (Sim.mkExt "/tmp/wal/agent/t1" ["0"; "7"] [] false false false false)
                   = (filter (λ g, Name g ≠ "3") Sim.listing, None))
    by reflexivity.
  assert (Huniq : ∀ g, g ∈ Sim.listing → parses_to 3%Z g → Name g = "3").
  { intros g Hg Hparse. unfold Sim.listing in Hg.
    repeat (apply elem_of_cons in Hg as [->|Hg]); try reflexivity; try discriminate Hparse.
    apply elem_of_nil in Hg. contradiction. }
  destruct (DeleteSegment_again_is_not_found Sim.wrapper 3 σ0 Sim.listing 1
              {| Name := "3"; IsDir := false |} _ Hread Hfind Hrm Hread2 Huniq)
    as (σ2 & Hrun & Hext & _).
  exists σ2. split; [exact Hrun|]. rewrite Hext. reflexivity.
Defined.

(** Segment 3 among the eight-digit names: 00000003 is found and removed. *)
Lemma DeleteSegment_matches_zero_padded_names_witness :
  strconv.Atoi "00000003" = Some 3%Z
  ∧ ∃ res σ',
      walWrapper_DeleteSegment Sim.wrapper 3 (Sim.world padded_disk) = (Return res, σ')
      ∧ res ≠ Some (errorString "segment not found")
      ∧ trace σ' = [CallReadDir "/tmp/wal/agent/t1";
                    CallRemove "/tmp/wal/agent/t1/00000003"].
Proof.
  assert (Hread : os_ReadDir (wl_Dir (wal Sim.wrapper)) (ext (Sim.world padded_disk))
                  = (map (λ n, {| Name := n; IsDir := false |})
                       ["00000002"; "00000003"; "checkpoint.00000001"], None))
    by reflexivity.
  destruct (DeleteSegment_matches_zero_padded_names Sim.wrapper 3 (Sim.world padded_disk)
              _ {| Name := "00000003"; IsDir := false |} 7 "3" Hread)
    as (Hparse & i & g & res & σ' & Hfind & Hrun & Hres & Htrace).
  - right. left.
  - reflexivity.
  - discriminate.
  - reflexivity.
  - unfold maxInt. lia.
  - split; [exact Hparse|]. exists res, σ'. split; [exact Hrun|]. split; [exact Hres|].
    vm_compute in Hfind. injection Hfind as _ <-. exact Htrace.
Defined.

(** A program on the simulated wrapper, from a new pool. *)
Lemma wrapper_programs_keep_the_pools_witness :
  let program := [OpLog (Some (Sim.rec 1 1)); OpSync; OpDeleteSegment 3; OpNextSegment;
                  OpDelete] in
  pool_truncated (recordPool σ0)
  ∧ ∃ answers σ',
      do_ops (do_op Sim.wrapper) program σ0 = (Return answers, σ')
      ∧ pool_truncated (recordPool σ')
      ∧ store σ' = store σ0.
Proof.
  intros program.
  assert (Ht : pool_truncated (recordPool σ0)) by (split; constructor).
  split; [exact Ht|].
  destruct (wrapper_programs_keep_the_pools Sim.wrapper program σ0 Ht)
    as (answers & σ' & Hrun & Ht' & Hs & _).
  exists answers, σ'. split; [exact Hrun|]. split; [exact Ht'|exact Hs].
Defined.

(** A program on the WAL of a configuration that disables it. *)
Lemma disabled_WAL_ignores_every_program_witness :
  let cfg := {| cfg_Enabled := false; cfg_Dir := "/tmp/wal" |} in
  let program := [OpLog (Some (Sim.rec 1 1)); OpSync; OpDir; OpDeleteSegment 3;
                  OpNextSegment; OpDelete] in
  cfg_Enabled cfg = false
  ∧ (made ← newWAL Sim.logger Sim.registerer cfg "agent" "t1";
     do_ops (WALValue_do made.1) program) σ0
    = (Return [AError None; AError None; ADir ""; AError None; ASegment 0 None;
               AError None], σ0).
Proof.
  intros cfg program. split; [reflexivity|].
  apply (disabled_WAL_ignores_every_program Sim.logger Sim.registerer cfg "agent" "t1"
           program σ0 eq_refl).
Defined.

(** The WAL of client agent and tenant t1 under /tmp/wal, and a program. *)
Lemma enabled_WAL_stays_in_its_directory_witness :
  let program := [OpLog (Some (Sim.rec 1 1)); OpDeleteSegment 3; OpDelete] in
  NewSize_keeps_dir (C := Sim.collaborators)
  ∧ cfg_Enabled Sim.config = true
  ∧ ∃ answers σ' new,
      (made ← newWAL Sim.logger Sim.registerer Sim.config "agent" "t1";
       do_ops (WALValue_do made.1) program) σ0
      = (Return answers, σ')
      ∧ trace σ'
        = CallNewSize Sim.logger Sim.registerer "/tmp/wal/agent/t1" 134217728 false :: new
      ∧ Forall (confined (mk_walWrapper "/tmp/wal/agent/t1" Sim.logger)) new.
Proof.
  intros program.
  assert (Hdir : NewSize_keeps_dir (C := Sim.collaborators)).
  { intros l g d s c x h x' H. injection H as H _. symmetry. exact H. }
  split; [exact Hdir|]. split; [reflexivity|].
  destruct (enabled_WAL_stays_in_its_directory Sim.logger Sim.registerer Sim.config
              "agent" "t1" program σ0 "/tmp/wal/agent/t1" Sim.disk Hdir eq_refl eq_refl)
    as (answers & σ' & new & Hrun & _ & Ht & Hc & _).
  exists answers, σ', new. split; [exact Hrun|]. split; [exact Ht|exact Hc].
Defined.

End more_runs.
